(** * OpenEduVoice: the resilient inference pipeline

    A shallow embedding of the three core modules of the repository

    - [core/translation/nllb_model.py]  (module [Nllb]),
    - [core/audio/transcriber.py]       (module [Transcriber]),
    - [app/main_window.py]              (module [MainWindow]),

    followed by the properties of the specification that concern them
    (modules [PyTextFacts], [NllbFacts], [TranscriberFacts] and
    [MainWindowFacts]).

    Conventions.  A Python [str] that is only measured, stripped and split
    (the text handed to the translator) is a list of Unicode code points
    ([pystr]); messages, model names and file names are [string]s.  A Python
    call that may raise returns [result]; the lines handed to the logging
    callback are collected, oldest first, in a list. *)

From Stdlib Require Import ZArith QArith Lia Bool Ascii String List.
From Stdlib Require Import DecimalString Permutation.
From stdpp Require Import base option list gmap strings.
Import ListNotations.

Open Scope Z_scope.

(** ** Python values shared by the three modules *)

(** Outcome of a call that may raise: the exception is kept as the text
    [str(e)] that the source interpolates into its messages. *)
Inductive result (A : Type) : Type :=
| Ok (a : A)
| Raise (e : string).
Arguments Ok {A} a.
Arguments Raise {A} e.

Definition is_ok {A} (r : result A) : bool :=
  match r with Ok _ => true | Raise _ => false end.

(** ** Python text: [str] as a sequence of code points *)
Module PyText.

Definition codepoint := N.
Definition pystr := list codepoint.

(** [str.isspace] on one character ([_PyUnicode_IsWhitespace]); the regular
    expression class [\s] of a [str] pattern uses the same table. *)
Definition isspace (c : codepoint) : bool :=
  ((9 <=? c) && (c <=? 13) || (28 <=? c) && (c <=? 32)
   || (c =? 133) || (c =? 160) || (c =? 5760)
   || (8192 <=? c) && (c <=? 8202)
   || (c =? 8232) || (c =? 8233) || (c =? 8239) || (c =? 8287)
   || (c =? 12288))%N.

(** The lookbehind class [[.!?]]. *)
Definition is_sentence_end (c : codepoint) : bool :=
  ((c =? 46) || (c =? 33) || (c =? 63))%N.

Definition SPACE : codepoint := 32%N.
Definition NEWLINE : codepoint := 10%N.

(** [len(s)] *)
Definition len (s : pystr) : Z := Z.of_nat (length s).

(** Truth value of a string: [if s:]. *)
Definition truthy (s : pystr) : bool :=
  match s with [] => false | _ :: _ => true end.

Fixpoint lstrip (s : pystr) : pystr :=
  match s with
  | [] => []
  | c :: s' => if isspace c then lstrip s' else s
  end.

Fixpoint rstrip (s : pystr) : pystr :=
  match s with
  | [] => []
  | c :: s' =>
      match rstrip s' with
      | [] => if isspace c then [] else [c]
      | r => c :: r
      end
  end.

(** [s.strip()] *)
Definition strip (s : pystr) : pystr := rstrip (lstrip s).

(** [sep.join(parts)] *)
Fixpoint join (sep : pystr) (parts : list pystr) : pystr :=
  match parts with
  | [] => []
  | [p] => p
  | p :: ps => p ++ sep ++ join sep ps
  end.

(** Puts [c] in front of the piece being read. *)
Definition cons_head (c : codepoint) (pieces : list pystr) : list pystr :=
  match pieces with
  | [] => [[c]]
  | p :: ps => (c :: p) :: ps
  end.

(** [re.split(r"(?<=[.!?])\s+", s)], read from left to right.  A match
    starts at a white-space character whose predecessor is one of [.!?]
    and runs over the whole white-space run ([\s+] is greedy); the text
    between two matches is a piece, and a match at the very end leaves an
    empty last piece.  [prev_end] says that the character just read is in
    [[.!?]]; [skipping] that a match is being consumed. *)
Fixpoint re_split_aux (prev_end skipping : bool) (s : pystr) : list pystr :=
  match s with
  | [] => [[]]
  | c :: s' =>
      if isspace c then
        if skipping then re_split_aux false true s'
        else if prev_end then [] :: re_split_aux false true s'
        else cons_head c (re_split_aux false false s')
      else cons_head c (re_split_aux (is_sentence_end c) false s')
  end.

Definition re_split_sentences (s : pystr) : list pystr :=
  re_split_aux false false s.

(** A 7-bit literal as a [str]. *)
Fixpoint u (s : string) : pystr :=
  match s with
  | EmptyString => []
  | String a s' => N_of_ascii a :: u s'
  end.

(** [str(n)] for a non-negative [int]. *)
Definition str_of_nat (n : nat) : string :=
  NilEmpty.string_of_uint (Nat.to_uint n).

(** [s.rstrip()] on a message. *)
Fixpoint rstrip_string (s : string) : string :=
  match s with
  | EmptyString => EmptyString
  | String c s' =>
      match rstrip_string s' with
      | EmptyString =>
          if isspace (N_of_ascii c) then EmptyString else String c EmptyString
      | r => String c r
      end
  end.

Definition DQUOTE : ascii := ascii_of_nat 34.
Definition SQUOTE : ascii := ascii_of_nat 39.
Definition BACKSLASH : ascii := ascii_of_nat 92.

Fixpoint contains_char (c : ascii) (s : string) : bool :=
  match s with
  | EmptyString => false
  | String a s' => Ascii.eqb a c || contains_char c s'
  end.

Fixpoint escape (quote : ascii) (s : string) : string :=
  match s with
  | EmptyString => EmptyString
  | String a s' =>
      if Ascii.eqb a BACKSLASH || Ascii.eqb a quote
      then String BACKSLASH (String a (escape quote s'))
      else String a (escape quote s')
  end.

(** [repr(s)] of a printable [str]: single quotes unless the text has a
    single quote and no double quote; the quote and the backslash are
    escaped. *)
Definition repr_str (s : string) : string :=
  let quote :=
    if contains_char SQUOTE s && negb (contains_char DQUOTE s)
    then DQUOTE else SQUOTE in
  String quote (escape quote s +:+ String quote EmptyString).

(** [repr] of a list of [str], as an f-string prints it. *)
Definition repr_list (l : list string) : string :=
  "[" +:+ String.concat ", " (map repr_str l) +:+ "]".

(** *** Vocabulary of the properties *)

(** A string that does not begin with white space. *)
Definition starts_clean (s : pystr) : bool :=
  match s with [] => true | c :: _ => negb (isspace c) end.

(** A string that [strip] leaves as it is. *)
Definition stripped (s : pystr) : Prop :=
  starts_clean s = true /\ rstrip s = s.

End PyText.

(** ** [core/translation/nllb_model.py] *)
Module Nllb.
Import PyText.

Definition DEFAULT_MODEL_SMALL : string := "facebook/nllb-200-distilled-600M".
Definition DEFAULT_MODEL_LARGE : string := "facebook/nllb-200-3.3B".

(** *** Sentence-bounded chunking *)

(** One turn of the loop [for sentence in sentences] of
    [_split_by_sentences], on the pair [(chunks, current)]. *)
Definition pack_step (max_chars : Z) (st : list pystr * pystr)
    (sentence : pystr) : list pystr * pystr :=
  let '(chunks, current) := st in
  if negb (truthy sentence) then st
  else if len current + len sentence <=? max_chars then
    (chunks,
     if truthy current then strip (current ++ [SPACE] ++ sentence)
     else sentence)
  else
    (if truthy current then chunks ++ [strip current] else chunks,
     sentence).

(** The expression [text or EMPTY], [EMPTY] being the empty string. *)
Definition or_empty (text : option pystr) : pystr :=
  match text with Some t => t | None => [] end.

(** The list [sentences] of [_split_by_sentences]. *)
Definition split_sentences (text : option pystr) : list pystr :=
  re_split_sentences (strip (or_empty text)).

Definition _split_by_sentences (text : option pystr) (max_chars : Z)
    : list pystr :=
  let '(chunks, current) :=
    fold_left (pack_step max_chars) (split_sentences text) ([], []) in
  if truthy current then chunks ++ [strip current] else chunks.

(** The sentences the loop does not skip. *)
Definition sentences_of (text : option pystr) : list pystr :=
  filter (fun s => truthy s = true) (split_sentences text).

(** A sentence as the loop meets it: not empty, no white space around. *)
Definition whole (s : pystr) : Prop := s <> [] /\ stripped s.

(** [chunk] is made of the sentences [group]: it is their join with one
    space, and it is at most [max_chars + 1] long unless it is a single
    sentence longer than [max_chars]. *)
Definition chunk_of (max_chars : Z) (group : list pystr) (chunk : pystr)
    : Prop :=
  group <> [] /\ chunk = join [SPACE] group
  /\ (len chunk <= max_chars + 1
      \/ exists s, group = [s] /\ max_chars < len s).

(** The bound as the specification words it: every chunk is at most
    [max_chars] long or is one sentence longer than [max_chars]. *)
Definition chunk_bound_as_stated (text : option pystr) (max_chars : Z)
    : Prop :=
  Forall (fun c => len c <= max_chars
                   \/ (In c (sentences_of text) /\ max_chars < len c))
         (_split_by_sentences text max_chars).

(** The state of the loop after the sentences [seen]: the closed chunks
    and the open one, each with the sentences it is made of. *)
Definition pack_inv (max_chars : Z) (seen : list pystr)
    (st : list pystr * pystr) : Prop :=
  exists groups cur,
    seen = concat groups ++ cur
    /\ Forall2 (chunk_of max_chars) groups (fst st)
    /\ ((cur = [] /\ snd st = [])
        \/ (chunk_of max_chars cur (snd st) /\ whole (snd st))).

(** *** Device and model selection *)

(** What [torch] answers on this machine.  [cuda_total_memory] is
    [torch.cuda.get_device_properties(0).total_memory], in bytes. *)
Record Torch : Type := {
  cuda_is_available : result bool;
  cuda_total_memory : result Z
}.

(** [1024 ** 3] *)
Definition GIB : Z := 1024 ^ 3.

(** [float(props.total_memory) / (1024 ** 3)], as an exact rational.  The
    only use of the value is its comparison with [16.0]; the conversion of
    the byte count to a float is monotone and exact at [16 * 1024 ** 3],
    and the division by a power of two is exact, so the comparison on
    floats and the one on rationals agree. *)
Definition _cuda_total_gib (t : Torch) : Q :=
  match cuda_is_available t with
  | Ok true =>
      match cuda_total_memory t with
      | Ok total => (inject_Z total / inject_Z GIB)%Q
      | Raise _ => 0%Q
      end
  | Ok false => 0%Q
  | Raise _ => 0%Q
  end.

Definition VRAM_THRESHOLD : Q := 16%Q.

(** [x >= 16.0] and [x < 16.0] *)
Definition ge_threshold (x : Q) : bool := Qle_bool VRAM_THRESHOLD x.
Definition lt_threshold (x : Q) : bool := negb (Qle_bool VRAM_THRESHOLD x).

(** [if requested:] on an [Optional[str]]. *)
Definition requested_truthy (requested : option string) : bool :=
  match requested with
  | Some s => negb (String.eqb s "")
  | None => false
  end.

Definition _pick_model_name (t : Torch) (requested : option string) : string :=
  if requested_truthy requested then default "" requested
  else
    let vram_gib := _cuda_total_gib t in
    if ge_threshold vram_gib then DEFAULT_MODEL_LARGE
    else DEFAULT_MODEL_SMALL.

Inductive device : Type := Cuda | Cpu.

(** [device.type] *)
Definition device_type (d : device) : string :=
  match d with Cuda => "cuda" | Cpu => "cpu" end.

Definition is_cuda (d : device) : bool :=
  String.eqb (device_type d) "cuda".

(** The call [torch.cuda.is_available()] is not guarded here. *)
Definition _choose_device (t : Torch) : result device :=
  match cuda_is_available t with
  | Ok true => Ok Cuda
  | Ok false => Ok Cpu
  | Raise e => Raise e
  end.

(** What the constructor and [translate] leave behind: the lines given to
    the [log] callback, the process environment, and the calls made to
    [model.generate] and [torch.cuda.empty_cache]. *)
Record World : Type := {
  log_lines : list string;
  environ : gmap string string;
  generate_calls : list (list Z);
  empty_cache_calls : nat
}.

Definition emit (has_log : bool) (line : string) (w : World) : World :=
  if has_log then
    {| log_lines := log_lines w ++ [line]; environ := environ w;
       generate_calls := generate_calls w;
       empty_cache_calls := empty_cache_calls w |}
  else w.

(** [os.environ.setdefault("PYTORCH_CUDA_ALLOC_CONF", ...)] *)
Definition _set_allocator_hints (w : World) : World :=
  match environ w !! "PYTORCH_CUDA_ALLOC_CONF" with
  | Some _ => w
  | None =>
      {| log_lines := log_lines w;
         environ := <["PYTORCH_CUDA_ALLOC_CONF" := "expandable_segments:True"]>
                      (environ w);
         generate_calls := generate_calls w;
         empty_cache_calls := empty_cache_calls w |}
  end.

(** [try: torch.cuda.empty_cache() except Exception: pass] *)
Definition try_empty_cache (w : World) : World :=
  {| log_lines := log_lines w; environ := environ w;
     generate_calls := generate_calls w;
     empty_cache_calls := S (empty_cache_calls w) |}.

Definition MEMORY_FALLBACK_WARNING : string :=
  "[WARN] NLLB model 'facebook/nllb-200-3.3B' is too large for this GPU. "
  +:+ "Falling back to CPU to avoid CUDA OOM.".

(** The test of the memory override in [__init__]. *)
Definition memory_override (t : Torch) (chosen_model : string) (d : device)
    : bool :=
  String.eqb chosen_model DEFAULT_MODEL_LARGE && is_cuda d
  && lt_threshold (_cuda_total_gib t).

(** The first half of [__init__]: device and model decision, with the
    override, the allocator hints and the [INFO] line.  It yields the final
    device and the chosen model. *)
Definition init_decide (t : Torch) (model_name : option string)
    (has_log : bool) (w : World) : World * result (device * string) :=
  match _choose_device t with
  | Raise e => (w, Raise e)
  | Ok dev0 =>
      let chosen_model := _pick_model_name t model_name in
      let '(w1, dev) :=
        if memory_override t chosen_model dev0
        then (emit has_log MEMORY_FALLBACK_WARNING w, Cpu)
        else (w, dev0) in
      let w2 :=
        if is_cuda dev then try_empty_cache (_set_allocator_hints w1)
        else w1 in
      let w3 :=
        emit has_log
          ("[INFO] NLLB model selected: " +:+ chosen_model
           +:+ " (device=" +:+ device_type dev +:+ ")") w2 in
      (w3, Ok (dev, chosen_model))
  end.

(** The HuggingFace loaders: [NllbTokenizer.from_pretrained(name)],
    [AutoModelForSeq2SeqLM.from_pretrained(name, **model_kwargs)] (the flag
    says that [torch_dtype=torch.float16] is passed) and
    [model.to(device)]. *)
Record Hub : Type := {
  tokenizer_from_pretrained : string -> result unit;
  model_from_pretrained : string -> bool -> result unit;
  model_to : device -> result unit
}.

Record Translator : Type := {
  source_lang : string;
  target_lang : string;
  tr_device : device;
  tr_model_name : string
}.

Definition __init__ (t : Torch) (hub : Hub) (src tgt : string)
    (model_name : option string) (has_log : bool) (w : World)
    : World * result Translator :=
  match init_decide t model_name has_log w with
  | (w', Raise e) => (w', Raise e)
  | (w', Ok (dev, chosen_model)) =>
      match tokenizer_from_pretrained hub chosen_model with
      | Raise e => (w', Raise e)
      | Ok _ =>
          match model_from_pretrained hub chosen_model (is_cuda dev) with
          | Raise e => (w', Raise e)
          | Ok _ =>
              match model_to hub dev with
              | Raise e => (w', Raise e)
              | Ok _ =>
                  (w', Ok {| source_lang := src; target_lang := tgt;
                             tr_device := dev;
                             tr_model_name := chosen_model |})
              end
          end
      end
  end.

(** *** Chunked translation *)

(** The loaded tokenizer and model: [convert_tokens_to_ids],
    the tokenizer call (with the move of the tensors to the device),
    [model.generate] with the forced first token, and
    [batch_decode(...)[0]]. *)
Record Engine : Type := {
  convert_tokens_to_ids : string -> result Z;
  tokenize : pystr -> result (list Z);
  generate : list Z -> Z -> result (list Z);
  batch_decode_first : list Z -> result (option pystr)
}.

Definition record_generate (inputs : list Z) (w : World) : World :=
  {| log_lines := log_lines w; environ := environ w;
     generate_calls := generate_calls w ++ [inputs];
     empty_cache_calls := empty_cache_calls w |}.

(** The loop [for idx, chunk in enumerate(chunks, start=1)]. *)
Fixpoint translate_chunks (eng : Engine) (tr : Translator) (has_log : bool)
    (forced_id : Z) (total idx : nat) (chunks results : list pystr)
    (w : World) : World * result (list pystr) :=
  match chunks with
  | [] => (w, Ok results)
  | chunk :: rest =>
      let w1 :=
        emit has_log
          ("[INFO] Translating chunk " +:+ str_of_nat idx +:+ "/"
           +:+ str_of_nat total) w in
      match tokenize eng chunk with
      | Raise e => (w1, Raise e)
      | Ok inputs =>
          let w2 := record_generate inputs w1 in
          match generate eng inputs forced_id with
          | Raise e => (w2, Raise e)
          | Ok generated =>
              match batch_decode_first eng generated with
              | Raise e => (w2, Raise e)
              | Ok translated =>
                  let w3 :=
                    if is_cuda (tr_device tr) then try_empty_cache w2
                    else w2 in
                  translate_chunks eng tr has_log forced_id total (S idx)
                    rest (results ++ [strip (or_empty translated)]) w3
              end
          end
      end
  end.

Definition translate (eng : Engine) (tr : Translator)
    (text : option pystr) (max_chars : Z) (has_log : bool) (w : World)
    : World * result pystr :=
  let chunks := _split_by_sentences text max_chars in
  match chunks with
  | [] => (w, Ok [])
  | _ :: _ =>
      match convert_tokens_to_ids eng (target_lang tr) with
      | Raise e => (w, Raise e)
      | Ok forced_id =>
          match translate_chunks eng tr has_log forced_id (length chunks)
                  1%nat chunks [] w with
          | (w', Ok results) => (w', Ok (join [NEWLINE] results))
          | (w', Raise e) => (w', Raise e)
          end
      end
  end.

(** *** Vocabulary of the properties of the constructor *)

(** The number of [[WARN]] lines among [lines]. *)
Definition count_warn (lines : list string) : nat :=
  length (List.filter (String.prefix "[WARN]") lines).

(** The memory query of [_cuda_total_gib] fails inside its [try]. *)
Definition memory_query_fails (t : Torch) : Prop :=
  (exists e, cuda_is_available t = Raise e)
  \/ (cuda_is_available t = Ok true /\ exists e, cuda_total_memory t = Raise e).


(** A machine with a CUDA device of 8 GiB, loaders that succeed, and a
    fresh process. *)
Definition torch_8gib : Torch :=
  {| cuda_is_available := Ok true; cuda_total_memory := Ok (8 * GIB) |}.

Definition hub_ok : Hub :=
  {| tokenizer_from_pretrained := fun _ => Ok tt;
     model_from_pretrained := fun _ _ => Ok tt;
     model_to := fun _ => Ok tt |}.

Definition world0 : World :=
  {| log_lines := []; environ := ∅; generate_calls := [];
     empty_cache_calls := 0 |}.

(** *** Vocabulary of the further properties of the chunking *)

(** The sentences of one chunk after the other, as the loop groups them:
    [group] holds the sentences of the open chunk, [ss] those to come. *)
Fixpoint pack_from (max_chars : Z) (group : list pystr) (ss : list pystr)
    : list (list pystr) :=
  match ss with
  | [] => [group]
  | s :: ss' =>
      if len (join [SPACE] group) + len s <=? max_chars
      then pack_from max_chars (group ++ [s]) ss'
      else group :: pack_from max_chars [s] ss'
  end.

Definition groups_of (max_chars : Z) (ss : list pystr) : list (list pystr) :=
  match ss with
  | [] => []
  | s :: ss' => pack_from max_chars [s] ss'
  end.

(** A chunk is closed only when the next sentence does not pass the
    packing test: for two groups in a row, the join of the first and the
    first sentence of the second are together longer than [max_chars]. *)
Fixpoint greedy (max_chars : Z) (groups : list (list pystr)) : Prop :=
  match groups with
  | g1 :: ((g2 :: _) as rest) =>
      (forall s, head g2 = Some s ->
                 max_chars < len (join [SPACE] g1) + len s)
      /\ greedy max_chars rest
  | _ => True
  end.

(** *** Vocabulary of the further properties of [translate] *)

(** What the body of the loop of [translate] computes for one chunk: the
    translated text, or the exception that ends the loop. *)
Definition translate_one (eng : Engine) (forced_id : Z) (chunk : pystr)
    : result pystr :=
  match tokenize eng chunk with
  | Raise e => Raise e
  | Ok inputs =>
      match generate eng inputs forced_id with
      | Raise e => Raise e
      | Ok generated =>
          match batch_decode_first eng generated with
          | Raise e => Raise e
          | Ok translated => Ok (strip (or_empty translated))
          end
      end
  end.

Definition translated_text (r : result pystr) : pystr :=
  match r with Ok t => t | Raise _ => [] end.

(** The tensors that [model.generate] receives for a chunk. *)
Definition inputs_of (eng : Engine) (chunk : pystr) : list Z :=
  match tokenize eng chunk with Ok inputs => inputs | Raise _ => [] end.

(** The calls of [model.generate] that the failing chunk [c] still makes:
    one if its tokenization went through. *)
Definition calls_of_failed (eng : Engine) (chunk : pystr) : list (list Z) :=
  match tokenize eng chunk with Ok inputs => [inputs] | Raise _ => [] end.

Definition chunk_line (total idx : nat) : string :=
  "[INFO] Translating chunk " +:+ str_of_nat idx +:+ "/" +:+ str_of_nat total.

(** An engine that gives every chunk back as it is (one token for each
    character), and one whose generation fails on inputs of three tokens. *)
Definition engine_echo : Engine :=
  {| convert_tokens_to_ids := fun _ => Ok 256047;
     tokenize := fun chunk => Ok (map Z.of_N chunk);
     generate := fun inputs _ => Ok inputs;
     batch_decode_first := fun generated => Ok (Some (map Z.to_N generated)) |}.

Definition engine_fails_on_three : Engine :=
  {| convert_tokens_to_ids := fun _ => Ok 256047;
     tokenize := fun chunk => Ok (map Z.of_N chunk);
     generate := fun inputs _ =>
       if (length inputs =? 3)%nat then Raise "CUDA out of memory"
       else Ok inputs;
     batch_decode_first := fun generated => Ok (Some (map Z.to_N generated)) |}.

Definition translator_cpu : Translator :=
  {| source_lang := "deu_Latn"; target_lang := "eng_Latn";
     tr_device := Cpu; tr_model_name := DEFAULT_MODEL_SMALL |}.

(** *** Vocabulary of the further properties of the constructor *)

(** The device the constructor ends with, for the device [dev0] of
    [_choose_device]. *)
Definition final_device (t : Torch) (model_name : option string)
    (dev0 : device) : device :=
  if memory_override t (_pick_model_name t model_name) dev0 then Cpu
  else dev0.

Definition ALLOC_CONF : string := "PYTORCH_CUDA_ALLOC_CONF".

(** A machine with a CUDA device of 24 GiB. *)
Definition torch_24gib : Torch :=
  {| cuda_is_available := Ok true; cuda_total_memory := Ok (24 * GIB) |}.

End Nllb.

(** ** [core/audio/transcriber.py] *)
Module Transcriber.
Import PyText.

Definition DEFAULT_WHISPER_MODEL : string := "medium".
Definition UNSAFE_LARGE_MODELS : list string := ["large"; "large-v2"].

(** [x in UNSAFE_LARGE_MODELS] *)
Definition in_unsafe (x : string) : bool :=
  existsb (String.eqb x) UNSAFE_LARGE_MODELS.

(** A [pathlib] path once parsed: drive and root, then the components. *)
Record PurePath : Type := { anchor : string; parts : list string }.

Definition parent (p : PurePath) : PurePath :=
  {| anchor := anchor p; parts := removelast (parts p) |}.

(** [p / name] *)
Definition joinpath (p : PurePath) (name : string) : PurePath :=
  {| anchor := anchor p; parts := parts p ++ [name] |}.

(** [str(p)] for a Windows path: every use below is behind the test
    [os.name == "nt"]. *)
Definition path_str (p : PurePath) : string :=
  match anchor p, parts p with
  | EmptyString, [] => "."
  | a, ps => a +:+ String.concat "\" ps
  end.

(** The machine as the module sees it.  [sys_executable] is
    [Path(sys.executable)], [None] when the constructor raises;
    [path_exists] is [p.exists()] on [str(p)];
    [torch_cuda_is_available] is [import torch] followed by
    [torch.cuda.is_available()];
    [mkdir] is [output_dir.mkdir(parents=True, exist_ok=True)];
    [glob_wav] gives the names matched by [audio_dir.glob("*.wav")];
    [write_text_error] is the exception of [write_text] on a path, if
    any. *)
Record Env : Type := {
  os_name : string;
  sys_executable : option PurePath;
  path_exists : string -> result bool;
  torch_cuda_is_available : result bool;
  mkdir : string -> result unit;
  glob_wav : string -> list string;
  write_text_error : string -> option string
}.

(** The loaded [WhisperModel]: [transcribe] gives the [text] of the
    segments, or the exception met while producing them. *)
Record Model : Type := { transcribe : string -> result (list pystr) }.

(** The class [WhisperModel], called with the model name, [device] and
    [compute_type]. *)
Definition Ctor : Type := string -> string -> string -> result Model.

(** The observable state: the lines given to [safe_log], [os.environ],
    the constructor calls made, and the files written. *)
Record World : Type := {
  log : list string;
  environ : gmap string string;
  ctor_calls : list (string * string * string);
  files : gmap string pystr
}.

(** Modelled from the spec: [safe_log] of [utils/logging_utils.py] is not
    among the sources.  The log channel is an append-only stream of lines
    and writing to it never raises. *)
Definition safe_log (line : string) (w : World) : World :=
  {| log := log w ++ [line]; environ := environ w;
     ctor_calls := ctor_calls w; files := files w |}.

Definition set_environ (key value : string) (w : World) : World :=
  {| log := log w; environ := <[key := value]> (environ w);
     ctor_calls := ctor_calls w; files := files w |}.

Definition record_ctor_call (call : string * string * string) (w : World)
    : World :=
  {| log := log w; environ := environ w;
     ctor_calls := ctor_calls w ++ [call]; files := files w |}.

Definition write_file (path : string) (content : pystr) (w : World) : World :=
  {| log := log w; environ := environ w;
     ctor_calls := ctor_calls w; files := <[path := content]> (files w) |}.

(** The list [candidates] of both path functions. *)
Definition wheel_dirs (exe : PurePath) : list PurePath :=
  let venv_base := parent (parent exe) in
  let nvidia_path :=
    joinpath (joinpath (joinpath venv_base "Lib") "site-packages") "nvidia" in
  [ joinpath (joinpath nvidia_path "cuda_runtime") "bin";
    joinpath (joinpath nvidia_path "cublas") "bin";
    joinpath (joinpath nvidia_path "cudnn") "bin" ].

Definition PATH_TYPE_ERROR : string :=
  "expected str, bytes or os.PathLike object, not NoneType".

(** [any(p.exists() for p in candidates)]: stops at the first [True]. *)
Fixpoint any_exists (env : Env) (candidates : list PurePath) : result bool :=
  match candidates with
  | [] => Ok false
  | p :: rest =>
      match path_exists env (path_str p) with
      | Raise e => Raise e
      | Ok true => Ok true
      | Ok false => any_exists env rest
      end
  end.

Definition _cuda_wheels_present (env : Env) : bool :=
  if negb (String.eqb (os_name env) "nt") then false
  else
    match sys_executable env with
    | None => false
    | Some exe =>
        match any_exists env (wheel_dirs exe) with
        | Ok b => b
        | Raise _ => false
        end
    end.

Definition _torch_cuda_available (env : Env) : bool :=
  match torch_cuda_is_available env with
  | Ok b => b
  | Raise _ => false
  end.

Definition _select_device_and_compute (env : Env) (model_name : string)
    : string * string :=
  let cuda_ok := _torch_cuda_available env in
  if cuda_ok then ("cuda", "float16")
  else ("cpu", "int8").

(** [[str(p) for p in candidates if p.exists()]] *)
Fixpoint existing_dirs (env : Env) (candidates : list PurePath)
    : result (list string) :=
  match candidates with
  | [] => Ok []
  | p :: rest =>
      match path_exists env (path_str p) with
      | Raise e => Raise e
      | Ok b =>
          match existing_dirs env rest with
          | Raise e => Raise e
          | Ok l => Ok (if b then path_str p :: l else l)
          end
      end
  end.

(** [os.pathsep] on Windows. *)
Definition PATHSEP : string := ";".

(** [if key not in os.environ: os.environ[key] = value] *)
Definition set_if_absent (key value : string) (w : World) : World :=
  match environ w !! key with
  | Some _ => w
  | None => set_environ key value w
  end.

(** The body of the [try] block of [set_cuda_paths]. *)
Definition set_cuda_paths_try (env : Env) (w : World) : World * result unit :=
  match sys_executable env with
  | None => (w, Raise PATH_TYPE_ERROR)
  | Some exe =>
      match existing_dirs env (wheel_dirs exe) with
      | Raise e => (w, Raise e)
      | Ok [] => (w, Ok tt)
      | Ok to_prepend =>
          let current := default "" (environ w !! "PATH") in
          let new_path :=
            String.concat PATHSEP
              (to_prepend
               ++ (if String.eqb current "" then [] else [current])) in
          let w1 := set_environ "PATH" new_path w in
          let hint := String.concat PATHSEP to_prepend in
          let w2 :=
            set_if_absent "CUDA_PATH_V12_4" hint
              (set_if_absent "CUDA_PATH" hint w1) in
          (safe_log ("[INFO] CUDA DLL paths appended: "
                     +:+ repr_list to_prepend) w2, Ok tt)
      end
  end.

Definition set_cuda_paths (env : Env) (w : World) : World * result unit :=
  if negb (String.eqb (os_name env) "nt") then (w, Ok tt)
  else
    match set_cuda_paths_try env w with
    | (w', Ok _) => (w', Ok tt)
    | (w', Raise e) =>
        (safe_log ("[WARN] set_cuda_paths failed (continuing without): "
                   +:+ e) w', Ok tt)
    end.

(** *** Model initialisation *)

Definition loading_line (effective_model device compute_type : string)
    : string :=
  "[INFO] Loading faster-whisper model '" +:+ effective_model
  +:+ "' on device '" +:+ device +:+ "' (compute_type=" +:+ compute_type
  +:+ ")".

Definition init_failed_line (effective_model device compute_type e : string)
    : string :=
  "[WARN] Model init failed with device=" +:+ device
  +:+ ", compute_type=" +:+ compute_type +:+ ", model='"
  +:+ effective_model +:+ "': " +:+ e.

Definition substitution_line (requested_model : string) : string :=
  "[WARN] Whisper model '" +:+ requested_model
  +:+ "' on CUDA has been unstable on this setup. Overriding to '"
  +:+ DEFAULT_WHISPER_MODEL +:+ "' for reliability.".

(** [str(last_err)] inside the final message; [last_err] starts as
    [None]. *)
Definition str_of_last_err (last_err : option string) : string :=
  default "None" last_err.

Definition init_error (requested_model device : string)
    (last_err : option string) : string :=
  "Failed to initialize faster-whisper model '" +:+ requested_model
  +:+ "' on device '" +:+ device +:+ "': " +:+ str_of_last_err last_err.

Definition NOT_INSTALLED : string :=
  "faster-whisper is not installed or failed to import.".

(** The loop [for compute_type in compute_candidates]: it leaves with the
    model built ([inl]) or, once the list is used up, with [last_err]
    ([inr]). *)
Fixpoint try_candidates (ctor : Ctor) (effective_model device : string)
    (candidates : list string) (last_err : option string) (w : World)
    : World * (Model + option string) :=
  match candidates with
  | [] => (w, inr last_err)
  | compute_type :: rest =>
      let w1 :=
        safe_log (loading_line effective_model device compute_type) w in
      let w2 :=
        record_ctor_call (effective_model, device, compute_type) w1 in
      match ctor effective_model device compute_type with
      | Ok model => (w2, inl model)
      | Raise e =>
          try_candidates ctor effective_model device rest (Some e)
            (safe_log
               (init_failed_line effective_model device compute_type e) w2)
      end
  end.

Definition compute_candidates (device preferred_compute : string)
    : list string :=
  if String.eqb device "cuda" then [preferred_compute; "float32"; "int8"]
  else [preferred_compute; "float32"].

(** [_init_model]; [whisper] is the module-level name [WhisperModel],
    [None] when the import failed. *)
Definition _init_model (whisper : option Ctor) (env : Env)
    (model_size : string) (w : World) : World * result Model :=
  match whisper with
  | None => (w, Raise NOT_INSTALLED)
  | Some ctor =>
      let requested_model :=
        if String.eqb model_size "" then DEFAULT_WHISPER_MODEL
        else model_size in
      let '(device, preferred_compute) :=
        _select_device_and_compute env requested_model in
      let '(w1, effective_model) :=
        if String.eqb device "cuda" && in_unsafe requested_model
        then (safe_log (substitution_line requested_model) w,
              DEFAULT_WHISPER_MODEL)
        else (w, requested_model) in
      let w2 :=
        if String.eqb device "cuda" then fst (set_cuda_paths env w1)
        else w1 in
      match try_candidates ctor effective_model device
              (compute_candidates device preferred_compute) None w2 with
      | (w3, inl model) => (w3, Ok model)
      | (w3, inr last_err) =>
          (w3, Raise (init_error requested_model device last_err))
      end
  end.

(** *** Batch transcription *)

(** [os.sep] *)
Definition SEP (env : Env) : string :=
  if String.eqb (os_name env) "nt" then "\" else "/".

(** [str(dir / name)] *)
Definition child (env : Env) (dir name : string) : string :=
  dir +:+ SEP env +:+ name.

(** [wav_file.stem] of a name matched by ["*.wav"]: the name without its
    last suffix; the name [".wav"] has no suffix. *)
Definition stem (name : string) : string :=
  let n := String.length name in
  if (n <=? 4)%nat then name else String.substring 0 (n - 4) name.

Fixpoint insert_sorted (x : string) (l : list string) : list string :=
  match l with
  | [] => [x]
  | y :: l' => if String.leb x y then x :: l else y :: insert_sorted x l'
  end.

(** [sorted(...)] on the paths of one directory. *)
Definition sorted (l : list string) : list string :=
  fold_right insert_sorted [] l.

(** The body of the [try] for one file: the transcript and the output
    name and path, or the exception. *)
Definition transcribe_one (env : Env) (model : Model)
    (audio_dir output_dir name : string)
    : result (pystr * string * string) :=
  match transcribe model (child env audio_dir name) with
  | Raise e => Raise e
  | Ok segments =>
      let transcript := strip (join [SPACE] segments) in
      let out_name := stem name +:+ ".txt" in
      let out_path := child env output_dir out_name in
      match write_text_error env out_path with
      | Some e => Raise e
      | None => Ok (transcript, out_name, out_path)
      end
  end.

Definition transcribed_line (name out_name : string) (transcript : pystr)
    : string :=
  "[INFO] Transcribed: " +:+ name +:+ " -> " +:+ out_name +:+ " ("
  +:+ str_of_nat (length transcript) +:+ " chars)".

Definition failed_line (name e : string) : string :=
  "[ERROR] Failed to transcribe " +:+ name +:+ ": " +:+ e.

(** The loop [for wav_file in wav_files]. *)
Fixpoint transcribe_loop (env : Env) (model : Model)
    (audio_dir output_dir : string) (wav_files : list string)
    (transcribed_files : list string) (w : World) : World * list string :=
  match wav_files with
  | [] => (w, transcribed_files)
  | name :: rest =>
      match transcribe_one env model audio_dir output_dir name with
      | Ok (transcript, out_name, out_path) =>
          transcribe_loop env model audio_dir output_dir rest
            (transcribed_files ++ [out_path])
            (safe_log (transcribed_line name out_name transcript)
               (write_file out_path transcript w))
      | Raise e =>
          transcribe_loop env model audio_dir output_dir rest
            transcribed_files (safe_log (failed_line name e) w)
      end
  end.

Definition transcribe_audio_files (whisper : option Ctor) (env : Env)
    (audio_dir output_dir model_size : string) (w : World)
    : World * result (list string) :=
  match mkdir env output_dir with
  | Raise e => (w, Raise e)
  | Ok _ =>
      let w1 :=
        if _cuda_wheels_present env && _torch_cuda_available env
        then fst (set_cuda_paths env w) else w in
      match _init_model whisper env model_size w1 with
      | (w2, Raise e) =>
          (safe_log ("[ERROR] Could not load Whisper model '" +:+ model_size
                     +:+ "': " +:+ e) w2, Ok [])
      | (w2, Ok model) =>
          let wav_files := sorted (glob_wav env audio_dir) in
          match wav_files with
          | [] =>
              (safe_log ("[INFO] No .wav files found in: " +:+ audio_dir) w2,
               Ok [])
          | _ :: _ =>
              let '(w3, transcribed_files) :=
                transcribe_loop env model audio_dir output_dir wav_files
                  [] w2 in
              (safe_log ("[INFO] Total transcripts written: "
                         +:+ str_of_nat (length transcribed_files)) w3,
               Ok transcribed_files)
          end
      end
  end.

(** *** Vocabulary of the properties *)

(** [str(e)] of the exception of a failed call. *)
Definition error_text {A} (r : result A) : string :=
  match r with Raise e => e | Ok _ => "" end.

Definition is_error_line (line : string) : bool :=
  String.prefix "[ERROR]" line.

Definition is_substitution_line (line : string) : bool :=
  String.prefix "[WARN] Whisper model '" line.

Definition error_lines (lines : list string) : list string :=
  List.filter is_error_line lines.

Definition count_substitution (lines : list string) : nat :=
  length (List.filter is_substitution_line lines).

(** A line that is neither an error line nor a substitution warning. *)
Definition benign (line : string) : bool :=
  negb (is_error_line line) && negb (is_substitution_line line).

(** The directories that [set_cuda_paths] prepends on this machine. *)
Definition wheel_dirs_found (env : Env) : list string :=
  if negb (String.eqb (os_name env) "nt") then []
  else
    match sys_executable env with
    | None => []
    | Some exe =>
        match existing_dirs env (wheel_dirs exe) with
        | Ok l => l
        | Raise _ => []
        end
    end.

(** Idempotence as the specification words it: a second application leaves
    [PATH] and the CUDA path variables as the first one left them. *)
Definition paths_idempotent_as_stated (env : Env) (w : World) : Prop :=
  let w1 := fst (set_cuda_paths env w) in
  let w2 := fst (set_cuda_paths env w1) in
  environ w2 !! "PATH" = environ w1 !! "PATH"
  /\ environ w2 !! "CUDA_PATH" = environ w1 !! "CUDA_PATH"
  /\ environ w2 !! "CUDA_PATH_V12_4" = environ w1 !! "CUDA_PATH_V12_4".

(** A Windows virtual environment in [C:\venv].  [wheels] says whether the
    [cublas] wheel directory exists, [cuda] what torch reports. *)
Definition venv_python : PurePath :=
  {| anchor := "C:\"; parts := ["venv"; "Scripts"; "python.exe"] |}.

Definition CUBLAS_BIN : string :=
  "C:\venv\Lib\site-packages\nvidia\cublas\bin".

Definition windows_env (wheels cuda : bool) : Env :=
  {| os_name := "nt";
     sys_executable := Some venv_python;
     path_exists := fun p => Ok (wheels && String.eqb p CUBLAS_BIN);
     torch_cuda_is_available := Ok cuda;
     mkdir := fun _ => Ok tt;
     glob_wav := fun _ => [];
     write_text_error := fun _ => None |}.

Definition world_with_path (path : string) : World :=
  {| log := []; environ := {[ "PATH" := path ]}; ctor_calls := [];
     files := ∅ |}.

(** [os.environ] after the three assignments of [set_cuda_paths], for the
    directories [dirs]. *)
Definition new_path (dirs : list string) (m : gmap string string) : string :=
  let current := default "" (m !! "PATH") in
  String.concat PATHSEP
    (dirs ++ (if String.eqb current "" then [] else [current])).

Definition put_if_absent (key value : string) (m : gmap string string)
    : gmap string string :=
  match m !! key with Some _ => m | None => <[key := value]> m end.

Definition patched_environ (dirs : list string) (m : gmap string string)
    : gmap string string :=
  put_if_absent "CUDA_PATH_V12_4" (String.concat PATHSEP dirs)
    (put_if_absent "CUDA_PATH" (String.concat PATHSEP dirs)
       (<["PATH" := new_path dirs m]> m)).

(** The lines that one attempt of the fallback loop logs: the [INFO] line
    before the call and, when the call fails, the warning that names the
    failed configuration. *)
Definition attempt_lines (effective_model device compute_type : string)
    (r : result Model) : list string :=
  loading_line effective_model device compute_type
  :: match r with
     | Ok _ => []
     | Raise e => [init_failed_line effective_model device compute_type e]
     end.

(** The world once the candidates [attempted] have been tried, in order. *)
Definition after_attempts (ctor : Ctor) (effective_model device : string)
    (attempted : list string) (w : World) : World :=
  {| log := log w
            ++ flat_map (fun c => attempt_lines effective_model device c
                                    (ctor effective_model device c))
                 attempted;
     environ := environ w;
     ctor_calls := ctor_calls w
                   ++ map (fun c => (effective_model, device, c)) attempted;
     files := files w |}.

(** The candidate fails. *)
Definition fails (ctor : Ctor) (effective_model device c : string) : bool :=
  negb (is_ok (ctor effective_model device c)).

(** [model_size or DEFAULT_WHISPER_MODEL] *)
Definition requested_of (model_size : string) : string :=
  if String.eqb model_size "" then DEFAULT_WHISPER_MODEL else model_size.

(** The device and the first compute type of [_init_model]. *)
Definition device_of (env : Env) (model_size : string) : string :=
  fst (_select_device_and_compute env (requested_of model_size)).

Definition preferred_of (env : Env) (model_size : string) : string :=
  snd (_select_device_and_compute env (requested_of model_size)).

(** The model that [_init_model] hands to the constructor. *)
Definition effective_of (env : Env) (model_size : string) : string :=
  if String.eqb (device_of env model_size) "cuda"
     && in_unsafe (requested_of model_size)
  then DEFAULT_WHISPER_MODEL else requested_of model_size.

(** The world when the fallback loop of [_init_model] starts. *)
Definition before_attempts (env : Env) (model_size : string) (w : World)
    : World :=
  let w1 :=
    if String.eqb (device_of env model_size) "cuda"
       && in_unsafe (requested_of model_size)
    then safe_log (substitution_line (requested_of model_size)) w else w in
  if String.eqb (device_of env model_size) "cuda"
  then fst (set_cuda_paths env w1) else w1.

(** The world of [transcribe_audio_files] when it calls [_init_model]. *)
Definition path_patched (env : Env) (w : World) : World :=
  if _cuda_wheels_present env && _torch_cuda_available env
  then fst (set_cuda_paths env w) else w.

(** The file [name] is transcribed and written without an exception. *)
Definition succeeds (env : Env) (model : Model)
    (audio_dir output_dir name : string) : bool :=
  is_ok (transcribe_one env model audio_dir output_dir name).

(** The path of the transcript of [name]. *)
Definition out_path_of (env : Env) (output_dir name : string) : string :=
  child env output_dir (stem name +:+ ".txt").

(** The line logged for [name] by the loop of [transcribe_audio_files]. *)
Definition file_line (env : Env) (model : Model)
    (audio_dir output_dir name : string) : string :=
  match transcribe_one env model audio_dir output_dir name with
  | Ok (transcript, out_name, _) => transcribed_line name out_name transcript
  | Raise e => failed_line name e
  end.

(** A constructor that builds a model whose transcription of every file is
    the single segment [ok], and one that refuses [float16]. *)
Definition model_ok : Model :=
  {| transcribe := fun _ => Ok [u "ok"] |}.

Definition ctor_ok : Ctor := fun _ _ _ => Ok model_ok.

Definition ctor_no_float16 : Ctor :=
  fun _ _ compute_type =>
    if String.eqb compute_type "float16"
    then Raise "float16 is not supported" else Ok model_ok.

(** A CPU-only machine whose input directory holds three recordings, and a
    model that cannot decode [b.wav]. *)
Definition batch_env : Env :=
  {| os_name := "posix";
     sys_executable := None;
     path_exists := fun _ => Ok false;
     torch_cuda_is_available := Ok false;
     mkdir := fun _ => Ok tt;
     glob_wav := fun _ => ["c.wav"; "a.wav"; "b.wav"];
     write_text_error := fun _ => None |}.

Definition model_flaky : Model :=
  {| transcribe := fun path =>
       if String.eqb path "in/b.wav" then Raise "decode error"
       else Ok [u " Guten Tag."; u " Danke."] |}.

Definition ctor_flaky : Ctor := fun _ _ _ => Ok model_flaky.

Definition world_empty : World :=
  {| log := []; environ := ∅; ctor_calls := []; files := ∅ |}.

(** *** Vocabulary of the further properties *)


Definition total_line (n : nat) : string :=
  "[INFO] Total transcripts written: " +:+ str_of_nat n.

Definition load_error_line (model_size e : string) : string :=
  "[ERROR] Could not load Whisper model '" +:+ model_size +:+ "': " +:+ e.

Definition no_wav_line (audio_dir : string) : string :=
  "[INFO] No .wav files found in: " +:+ audio_dir.

End Transcriber.

(** ** [app/main_window.py] *)
Module MainWindow.
Import PyText.

Inductive widget : Type := LogText | OutputText.

(** A call scheduled on the Tk main thread with [root.after(0, ...)]:
    the widget calls of the [ui_*] helpers, and the continuation
    [lambda: run_step(index)] that a stage hands back when it is over. *)
Inductive ui_call : Type :=
| Delete (wd : widget)
| Insert (wd : widget) (text : string)
| See (wd : widget)
| ConfigureProgress (value : Z)
| Continue (index : nat).

(** The controller.  [log_sink] holds the messages given to [safe_log],
    [invoked] the names of the stage functions called so far. *)
Record App : Type := {
  acknowledge_var : option bool;
  progress_value : Z;
  progress_maximum : Z;
  log_text : list string;
  output_text : list string;
  after_queue : list ui_call;
  log_sink : list string;
  invoked : list string
}.

Definition set_progress_value (v : Z) (a : App) : App :=
  {| acknowledge_var := acknowledge_var a; progress_value := v;
     progress_maximum := progress_maximum a; log_text := log_text a;
     output_text := output_text a; after_queue := after_queue a;
     log_sink := log_sink a; invoked := invoked a |}.

Definition set_progress_maximum (v : Z) (a : App) : App :=
  {| acknowledge_var := acknowledge_var a; progress_value := progress_value a;
     progress_maximum := v; log_text := log_text a;
     output_text := output_text a; after_queue := after_queue a;
     log_sink := log_sink a; invoked := invoked a |}.

Definition set_widget (wd : widget) (content : list string) (a : App) : App :=
  {| acknowledge_var := acknowledge_var a; progress_value := progress_value a;
     progress_maximum := progress_maximum a;
     log_text := match wd with LogText => content | _ => log_text a end;
     output_text :=
       match wd with OutputText => content | _ => output_text a end;
     after_queue := after_queue a;
     log_sink := log_sink a; invoked := invoked a |}.

Definition get_widget (wd : widget) (a : App) : list string :=
  match wd with LogText => log_text a | OutputText => output_text a end.

Definition set_after_queue (q : list ui_call) (a : App) : App :=
  {| acknowledge_var := acknowledge_var a; progress_value := progress_value a;
     progress_maximum := progress_maximum a; log_text := log_text a;
     output_text := output_text a; after_queue := q;
     log_sink := log_sink a; invoked := invoked a |}.

Definition record_invoked (name : string) (a : App) : App :=
  {| acknowledge_var := acknowledge_var a; progress_value := progress_value a;
     progress_maximum := progress_maximum a; log_text := log_text a;
     output_text := output_text a; after_queue := after_queue a;
     log_sink := log_sink a; invoked := invoked a ++ [name] |}.

(** Modelled from the spec: [safe_log] of [utils/logging_utils.py] is not
    among the sources.  The log channel is an append-only stream of lines
    and writing to it never raises. *)
Definition safe_log (message : string) (a : App) : App :=
  {| acknowledge_var := acknowledge_var a; progress_value := progress_value a;
     progress_maximum := progress_maximum a; log_text := log_text a;
     output_text := output_text a; after_queue := after_queue a;
     log_sink := log_sink a ++ [message]; invoked := invoked a |}.

(** [self.root.after(0, ...)] *)
Definition _ui (call : ui_call) (a : App) : App :=
  set_after_queue (after_queue a ++ [call]) a.

Definition NL : string := String (ascii_of_nat 10) EmptyString.

(** Both widgets are [Text] widgets: the branch with [insert]. *)
Definition ui_set_text (wd : widget) (text : string) (replace : bool)
    (a : App) : App :=
  let a1 := if replace then _ui (Delete wd) a else a in
  _ui (See wd) (_ui (Insert wd text) a1).

Definition ui_progress (value : Z) (a : App) : App :=
  _ui (ConfigureProgress value) a.

Definition ui_log (message : string) (a : App) : App :=
  ui_set_text LogText (rstrip_string message +:+ NL) false a.

Definition ui_output (message : string) (replace : bool) (a : App) : App :=
  ui_set_text OutputText (rstrip_string message +:+ NL) replace a.

Definition summary_prefixes : list string :=
  ["[DONE]"; "Combined"; "Generated"; "Translated"; "Saved"; "Selected";
   "Starting"; "[WARN]"; "[ERROR]"].

(** [message.startswith(summary_prefixes)] *)
Definition is_summary (message : string) : bool :=
  existsb (fun p => String.prefix p message) summary_prefixes.

Definition log_and_output (message : string) (a : App) : App :=
  let a1 := ui_log message (safe_log message a) in
  if is_summary message then ui_output message false a1 else a1.

Definition done (note : string) (a : App) : App :=
  log_and_output note (ui_progress 100 a).

Definition handle_exception (context e : string) (a : App) : App :=
  log_and_output ("[ERROR] " +:+ context +:+ ": " +:+ e) a.

Definition increment_progress (a : App) : App :=
  let current := progress_value a in
  ui_progress (current + 1) a.

(** A stage function called with its continuation; the continuation
    [lambda: run_step(index + 1)] is given by its index. *)
Definition Stage : Type := nat -> App -> App.

(** The common shape of the seven pipeline functions: the work of the
    task, then [increment_progress] or, on an exception,
    [handle_exception]; at last the continuation is scheduled.  The task
    runs on a thread of its own; here it runs to its end when started. *)
Definition pipeline_stage (context : string)
    (work : App -> App * result unit) : Stage :=
  fun next a =>
    let '(a1, r) := work a in
    let a2 :=
      match r with
      | Ok _ => increment_progress a1
      | Raise e => handle_exception context e a1
      end in
    _ui (Continue next) a2.

Definition ACK_WARNING : string :=
  "[WARN] Please confirm the acknowledgement checkbox before running any steps.".

(** The inner function [run_step] of [run_selected_steps]. *)
Definition run_step (selected_steps : list (string * Stage)) (index : nat)
    (a : App) : App :=
  match nth_error selected_steps index with
  | None => done "All selected steps completed." a
  | Some (name, method) =>
      method (S index)
        (record_invoked name (log_and_output ("Starting: " +:+ name) a))
  end.

(** [[(name, method) for name, (var, method) in ... if var.get()]] *)
Definition select_steps (steps_vars : list (string * (bool * Stage)))
    : list (string * Stage) :=
  flat_map (fun '(name, (var, method)) =>
              if var : bool then [(name, method)] else []) steps_vars.

Definition run_selected_steps (steps_vars : list (string * (bool * Stage)))
    (a : App) : App :=
  if negb (default false (acknowledge_var a)) then
    log_and_output ACK_WARNING a
  else
    let a1 := set_progress_value 0 a in
    let selected_steps := select_steps steps_vars in
    let total := Z.max 1 (Z.of_nat (length selected_steps)) in
    let a2 := set_progress_maximum total a1 in
    run_step selected_steps 0 (ui_progress 0 a2).

(** One scheduled call run by the Tk main loop. *)
Definition dispatch (selected_steps : list (string * Stage)) (call : ui_call)
    (a : App) : App :=
  match call with
  | Delete wd => set_widget wd [] a
  | Insert wd text => set_widget wd (get_widget wd a ++ [text]) a
  | See _ => a
  | ConfigureProgress value => set_progress_value value a
  | Continue index => run_step selected_steps index a
  end.

(** The main loop, for at most [fuel] scheduled calls. *)
Fixpoint mainloop (fuel : nat) (selected_steps : list (string * Stage))
    (a : App) : App :=
  match fuel with
  | O => a
  | S fuel' =>
      match after_queue a with
      | [] => a
      | call :: rest =>
          mainloop fuel' selected_steps
            (dispatch selected_steps call (set_after_queue rest a))
      end
  end.

(** *** Vocabulary of the properties *)

(** The controller right after [setup_ui], with the acknowledgement box in
    the state [ack]. *)
Definition app_fresh (ack : bool) : App :=
  {| acknowledge_var := Some ack; progress_value := 0; progress_maximum := 100;
     log_text := []; output_text := []; after_queue := [];
     log_sink := []; invoked := [] |}.

(** Two boxes ticked out of three; the work of each stage succeeds, but for
    the translation, which raises. *)
Definition steps_example : list (string * (bool * Stage)) :=
  [ ("Extract Slide Text (.txt)",
     (false, pipeline_stage "Extract Slide Text" (fun a => (a, Ok tt))));
    ("Transcribe",
     (true, pipeline_stage "Transcribe Audio" (fun a => (a, Ok tt))));
    ("Translate Audio Transcripts",
     (true, pipeline_stage "Translate Audio Transcripts"
              (fun a => (a, Raise "no transcripts")))) ].

(** The four widget calls that one summary message schedules. *)
Definition summary_calls (message : string) : list ui_call :=
  [ Insert LogText (rstrip_string message +:+ NL); See LogText;
    Insert OutputText (rstrip_string message +:+ NL); See OutputText ].

(** *** Vocabulary of the further properties *)

Definition is_widget_call (c : ui_call) : bool :=
  match c with Continue _ => false | _ => true end.

(** The widget calls that [log_and_output] schedules for a message. *)
Definition message_calls (message : string) : list ui_call :=
  [Insert LogText (rstrip_string message +:+ NL); See LogText]
  ++ (if is_summary message
      then [Insert OutputText (rstrip_string message +:+ NL); See OutputText]
      else []).

(** The progress value once the calls [q] have run. *)
Definition progress_after (q : list ui_call) (value : Z) : Z :=
  fold_left (fun v c => match c with ConfigureProgress v' => v' | _ => v end)
    q value.

(** From [a] to [b]: the calls scheduled, the messages logged and the
    stages called are appended; the progress value and its maximum are
    not touched. *)
Definition effect (a b : App) (calls : list ui_call) (logged : list string)
    (names : list string) : Prop :=
  after_queue b = after_queue a ++ calls
  /\ log_sink b = log_sink a ++ logged
  /\ invoked b = invoked a ++ names
  /\ progress_value b = progress_value a
  /\ progress_maximum b = progress_maximum a.

(** A pipeline function as the orchestrator sees it: its label and check
    box, the context of its error message, the messages its task logs
    through [log_and_output], and whether the task ends well or raises. *)
Record stage_descr : Type := {
  sd_name : string;
  sd_selected : bool;
  sd_context : string;
  sd_lines : list string;
  sd_outcome : result unit
}.

(** The work of a task that logs [lines] and ends with [outcome]. *)
Definition logging_work (lines : list string) (outcome : result unit)
    : App -> App * result unit :=
  fun a => (fold_left (fun a' line => log_and_output line a') lines a,
            outcome).

Definition stage_of (d : stage_descr) : Stage :=
  pipeline_stage (sd_context d) (logging_work (sd_lines d) (sd_outcome d)).

Definition steps_of (ds : list stage_descr)
    : list (string * (bool * Stage)) :=
  map (fun d => (sd_name d, (sd_selected d, stage_of d))) ds.

Definition selected_of (ds : list stage_descr) : list stage_descr :=
  List.filter sd_selected ds.

(** What the run logs for one stage. *)
Definition stage_log (d : stage_descr) : list string :=
  ("Starting: " +:+ sd_name d)
  :: sd_lines d
  ++ match sd_outcome d with
     | Ok _ => []
     | Raise e => ["[ERROR] " +:+ sd_context d +:+ ": " +:+ e]
     end.

Definition DONE_NOTE : string := "All selected steps completed.".

(** Three pipeline functions, the second of which fails. *)
Definition descr_example : list stage_descr :=
  [ {| sd_name := "Extract Slide Text (.txt)"; sd_selected := true;
       sd_context := "Extract Slide Text";
       sd_lines := ["Extracted 3 text files to: deck_transcript"];
       sd_outcome := Ok tt |};
    {| sd_name := "Transcribe"; sd_selected := true;
       sd_context := "Transcribe Audio";
       sd_lines := ["[INFO] No .wav files found in: deck_transcript"];
       sd_outcome := Raise "disk full" |};
    {| sd_name := "Generate TTS Audio"; sd_selected := false;
       sd_context := "Generate TTS Audio"; sd_lines := [];
       sd_outcome := Ok tt |};
    {| sd_name := "Translate Slide Text (.txt)"; sd_selected := true;
       sd_context := "Translate Slide Text";
       sd_lines := ["Translated 3 slide text files to: deck_transcript"];
       sd_outcome := Ok tt |} ].

End MainWindow.

(** * Properties *)

(** ** Stripping and splitting *)
Module PyTextFacts.
Import PyText.

Lemma sentence_end_not_space c : is_sentence_end c = true -> isspace c = false.
Proof.
  unfold is_sentence_end. intros H.
  apply orb_prop in H as [H | H]; [apply orb_prop in H as [H | H] |];
    apply N.eqb_eq in H; subst c; reflexivity.
Qed.

Lemma lstrip_length s : (length (lstrip s) <= length s)%nat.
Proof. induction s as [| c s IH]; simpl; [lia |]. destruct (isspace c); simpl; lia. Qed.

Lemma lstrip_fix s : lstrip s = s <-> starts_clean s = true.
Proof.
  destruct s as [| c s]; simpl; [tauto |].
  destruct (isspace c) eqn:E; simpl; split; intros H; try congruence.
  pose proof (lstrip_length s) as L. rewrite H in L. simpl in L. lia.
Qed.

Lemma lstrip_clean s : starts_clean (lstrip s) = true.
Proof.
  induction s as [| c s IH]; simpl; [reflexivity |].
  destruct (isspace c) eqn:E; [exact IH | simpl; now rewrite E].
Qed.

Lemma rstrip_cons_fix c s :
  rstrip (c :: s) = c :: s <-> rstrip s = s /\ (s = [] -> isspace c = false).
Proof.
  simpl. destruct (rstrip s) as [| r rs] eqn:E.
  - destruct (isspace c); split.
    + discriminate.
    + intros [<- H]. now specialize (H eq_refl).
    + intros H. injection H as <-. now split.
    + intros [<- _]. reflexivity.
  - split.
    + intros H. injection H as <-. split; [reflexivity | discriminate].
    + intros [<- _]. reflexivity.
Qed.

Lemma rstrip_idem s : rstrip (rstrip s) = rstrip s.
Proof.
  induction s as [| c s IH]; simpl; [reflexivity |].
  destruct (rstrip s) as [| r rs] eqn:E.
  - destruct (isspace c) eqn:Ec; simpl; [reflexivity | now rewrite Ec].
  - change (rstrip (c :: r :: rs) = c :: r :: rs).
    apply rstrip_cons_fix. split; [exact IH | discriminate].
Qed.

Lemma rstrip_clean s : starts_clean s = true -> starts_clean (rstrip s) = true.
Proof.
  destruct s as [| c s]; simpl; [reflexivity |]. intros Hc.
  destruct (rstrip s); [| exact Hc].
  destruct (isspace c) eqn:E; [reflexivity | simpl; now rewrite E].
Qed.

Lemma strip_stripped s : stripped (strip s).
Proof.
  unfold strip. split.
  - apply rstrip_clean, lstrip_clean.
  - apply rstrip_idem.
Qed.

Lemma stripped_strip s : stripped s -> strip s = s.
Proof.
  intros [H1 H2]. unfold strip. apply lstrip_fix in H1. now rewrite H1.
Qed.

Lemma rstrip_app_fix a b : b <> [] -> rstrip b = b -> rstrip (a ++ b) = a ++ b.
Proof.
  intros Hb Hr. induction a as [| c a IH]; [exact Hr |].
  change (rstrip (c :: (a ++ b)) = c :: (a ++ b)).
  apply rstrip_cons_fix. split; [exact IH |].
  intros H. apply app_eq_nil in H as [_ H]. contradiction.
Qed.

Lemma stripped_app a b :
  a <> [] -> starts_clean a = true -> b <> [] -> rstrip b = b ->
  stripped (a ++ b).
Proof.
  intros Ha Ha1 Hb Hb2. split.
  - destruct a; [contradiction | exact Ha1].
  - now apply rstrip_app_fix.
Qed.

Lemma re_split_aux_nonempty pe sk s : re_split_aux pe sk s <> [].
Proof.
  revert pe sk. induction s as [| c s IH]; intros pe sk; simpl; [discriminate |].
  destruct (isspace c).
  - destruct sk; [apply IH |]. destruct pe; [discriminate |].
    specialize (IH false false). destruct (re_split_aux false false s);
      [contradiction | discriminate].
  - specialize (IH (is_sentence_end c) false).
    destruct (re_split_aux (is_sentence_end c) false s);
      [contradiction | discriminate].
Qed.

Lemma re_split_heads s : forall pe sk,
  Forall (fun q => starts_clean q = true) (tl (re_split_aux pe sk s))
  /\ (sk = true \/ starts_clean s = true ->
      starts_clean (hd [] (re_split_aux pe sk s)) = true).
Proof.
  induction s as [| c s IH]; intros pe sk; simpl.
  - split; [constructor | reflexivity].
  - destruct (isspace c) eqn:Ec.
    + destruct sk.
      * destruct (IH false true) as [IH1 IH2]. split; [exact IH1 |].
        intros _. apply IH2. now left.
      * destruct pe.
        -- destruct (IH false true) as [IH1 IH2]. simpl. split; [| reflexivity].
           pose proof (re_split_aux_nonempty false true s) as Hne.
           destruct (re_split_aux false true s) as [| p ps]; [contradiction |].
           constructor; [apply IH2; now left | exact IH1].
        -- destruct (IH false false) as [IH1 _].
           pose proof (re_split_aux_nonempty false false s) as Hne.
           destruct (re_split_aux false false s) as [| p ps]; [contradiction |].
           simpl in *. split; [exact IH1 |]. intros [H | H]; discriminate.
    + destruct (IH (is_sentence_end c) false) as [IH1 _].
      pose proof (re_split_aux_nonempty (is_sentence_end c) false s) as Hne.
      destruct (re_split_aux (is_sentence_end c) false s) as [| p ps];
        [contradiction |].
      simpl in *. split; [exact IH1 |]. intros _. now rewrite Ec.
Qed.

Lemma re_split_first_nonempty s :
  s <> [] -> hd [] (re_split_aux false false s) <> [].
Proof.
  destruct s as [| c s]; [contradiction |]. intros _. simpl.
  pose proof (re_split_aux_nonempty false false s) as H1.
  pose proof (re_split_aux_nonempty (is_sentence_end c) false s) as H2.
  destruct (isspace c).
  - destruct (re_split_aux false false s); [contradiction | discriminate].
  - destruct (re_split_aux (is_sentence_end c) false s);
      [contradiction | discriminate].
Qed.

Lemma re_split_tails s : forall pe sk,
  rstrip s = s -> Forall (fun q => rstrip q = q) (re_split_aux pe sk s).
Proof.
  induction s as [| c s IH]; intros pe sk Hs; simpl.
  - constructor; [reflexivity | constructor].
  - apply rstrip_cons_fix in Hs as [Hs Hc].
    destruct (isspace c) eqn:Ec.
    + destruct sk; [now apply IH |].
      destruct pe; [constructor; [reflexivity | now apply IH] |].
      assert (Hne : s <> []) by (intros ->; now specialize (Hc eq_refl)).
      pose proof (re_split_first_nonempty s Hne) as Hp.
      specialize (IH false false Hs).
      destruct (re_split_aux false false s) as [| p ps]; [contradiction |].
      simpl in *. inversion IH as [| ? ? Hp1 Hps]; subst.
      constructor; [| exact Hps].
      apply rstrip_cons_fix. split; [exact Hp1 | intros ->; contradiction].
    + specialize (IH (is_sentence_end c) false Hs).
      pose proof (re_split_aux_nonempty (is_sentence_end c) false s) as Hne.
      destruct (re_split_aux (is_sentence_end c) false s) as [| p ps];
        [contradiction |].
      simpl. inversion IH as [| ? ? Hp1 Hps]; subst.
      constructor; [| exact Hps].
      apply rstrip_cons_fix. split; [exact Hp1 | intros _; exact Ec].
Qed.

(** Every piece of a stripped text is itself stripped. *)
Lemma re_split_stripped s :
  stripped s -> Forall stripped (re_split_sentences s).
Proof.
  intros [H1 H2]. unfold re_split_sentences.
  destruct (re_split_heads s false false) as [Ht Hh].
  pose proof (re_split_tails s false false H2) as Hr.
  pose proof (re_split_aux_nonempty false false s) as Hne.
  destruct (re_split_aux false false s) as [| p ps]; [contradiction |].
  simpl in *. inversion Hr as [| ? ? Hp Hps]; subst.
  constructor.
  - split; [apply Hh; now right | exact Hp].
  - clear - Ht Hps. induction ps as [| q qs IH]; [constructor |].
    inversion Ht; inversion Hps; subst. constructor; [now split | now apply IH].
Qed.

End PyTextFacts.


(** ** The translator on small inputs *)
Module NllbExamples.
Import PyText Nllb.

Example split_two_sentences :
  split_sentences (Some (u "  Hallo Welt.   Wie geht's?  Gut! "))
  = [u "Hallo Welt."; u "Wie geht's?"; u "Gut!"].
Proof. vm_compute. reflexivity. Qed.

Example split_keeps_inner_blanks :
  split_sentences (Some (u "a b .c. ")) = [u "a b .c."].
Proof. vm_compute. reflexivity. Qed.

Example chunks_greedy :
  _split_by_sentences (Some (u "Eins. Zwei. Drei. Vier.")) 11
  = [u "Eins. Zwei."; u "Drei. Vier."].
Proof. vm_compute. reflexivity. Qed.

Example chunks_oversized_sentence :
  _split_by_sentences (Some (u "Kurz. Ein sehr langer Satz. Ende.")) 6
  = [u "Kurz."; u "Ein sehr langer Satz."; u "Ende."].
Proof. vm_compute. reflexivity. Qed.

Example chunks_none : _split_by_sentences None 400 = [].
Proof. vm_compute. reflexivity. Qed.

End NllbExamples.

Module NllbFacts.
Import PyText PyTextFacts Nllb.

Lemma truthy_true s : truthy s = true <-> s <> [].
Proof. destruct s; simpl; split; congruence. Qed.

Lemma sentences_whole text : Forall whole (sentences_of text).
Proof.
  unfold sentences_of, split_sentences.
  pose proof (re_split_stripped _ (strip_stripped (or_empty text))) as H.
  induction H as [| p ps Hp Hps IH]; [constructor |].
  rewrite filter_cons. destruct (decide (truthy p = true)) as [Ht | Ht]; [| exact IH].
  constructor; [| exact IH]. split; [now apply truthy_true | exact Hp].
Qed.

Lemma fold_skips_empty max_chars l : forall st,
  fold_left (pack_step max_chars) l st
  = fold_left (pack_step max_chars) (filter (fun s => truthy s = true) l) st.
Proof.
  induction l as [| s l IH]; intros st; [reflexivity |].
  rewrite filter_cons. destruct (decide (truthy s = true)) as [Ht | Ht]; simpl.
  - apply IH.
  - rewrite <- IH. f_equal. unfold pack_step. destruct st as [chunks current].
    destruct (truthy s); [congruence | reflexivity].
Qed.

Lemma len_app a b : len (a ++ b) = len a + len b.
Proof. unfold len. rewrite length_app. lia. Qed.

Lemma join_snoc sep g s :
  g <> [] -> join sep (g ++ [s]) = join sep g ++ sep ++ s.
Proof.
  induction g as [| p g IH]; [contradiction |]. intros _.
  destruct g as [| q g]; [reflexivity |].
  change (p ++ sep ++ join sep ((q :: g) ++ [s])
          = (p ++ sep ++ join sep (q :: g)) ++ sep ++ s).
  rewrite IH by discriminate. now rewrite <- !app_assoc.
Qed.

Lemma chunk_of_single max_chars s : chunk_of max_chars [s] s.
Proof.
  split; [discriminate |]. split; [reflexivity |].
  destruct (Z_le_gt_dec (len s) (max_chars + 1)); [now left |].
  right. exists s. split; [reflexivity | lia].
Qed.

Lemma pack_step_inv max_chars seen st s :
  whole s -> pack_inv max_chars seen st ->
  pack_inv max_chars (seen ++ [s]) (pack_step max_chars st s).
Proof.
  intros [Hs Hss] (groups & cur & Hseen & Hgroups & Hcur).
  destruct st as [chunks current]. simpl in Hgroups, Hcur. unfold pack_step.
  apply truthy_true in Hs as Ht. rewrite Ht. simpl negb. cbv iota.
  destruct (len current + len s <=? max_chars) eqn:Hfit.
  - apply Z.leb_le in Hfit.
    destruct Hcur as [[-> ->] | [(Hne & Hjoin & Hbound) [Hcne Hcs]]].
    + exists groups, [s]. simpl. repeat split; try assumption.
      * now rewrite Hseen, app_nil_r.
      * right. split; [apply chunk_of_single | now split].
    + apply truthy_true in Hcne as Htc. rewrite Htc.
      assert (Hst : stripped (current ++ [SPACE] ++ s)).
      { apply stripped_app; [assumption | apply Hcs | discriminate |].
        apply (rstrip_app_fix [SPACE]); [assumption | apply Hss]. }
      rewrite (stripped_strip _ Hst).
      exists groups, (cur ++ [s]). simpl. repeat split.
      * now rewrite Hseen, app_assoc.
      * assumption.
      * right. split; [| split; [| exact Hst]].
        -- split; [now destruct cur |]. split.
           ++ rewrite join_snoc by assumption. now rewrite <- Hjoin.
           ++ left. unfold len in *. rewrite length_app. simpl length. lia.
        -- now destruct current.
  - destruct Hcur as [[-> ->] | [Hchunk [Hcne Hcs]]].
    + simpl. exists groups, [s]. simpl. repeat split; try assumption.
      * now rewrite Hseen, app_nil_r.
      * right. split; [apply chunk_of_single | now split].
    + apply truthy_true in Hcne as Htc. rewrite Htc.
      rewrite (stripped_strip _ Hcs).
      exists (groups ++ [cur]), [s]. simpl. repeat split.
      * rewrite Hseen, concat_app. simpl. now rewrite app_nil_r.
      * apply Forall2_app; [assumption |]. constructor; [assumption | constructor].
      * right. split; [apply chunk_of_single | now split].
Qed.

Lemma pack_fold_inv max_chars l : forall seen st,
  Forall whole l -> pack_inv max_chars seen st ->
  pack_inv max_chars (seen ++ l) (fold_left (pack_step max_chars) l st).
Proof.
  induction l as [| s l IH]; intros seen st Hl Hinv.
  - now rewrite app_nil_r.
  - inversion Hl as [| ? ? Hs Hl']; subst. simpl.
    replace (seen ++ s :: l) with ((seen ++ [s]) ++ l)
      by now rewrite <- app_assoc.
    apply IH; [assumption |]. now apply pack_step_inv.
Qed.

(** C1, as the code has it: every chunk is the join, with one space, of
    one or more whole consecutive sentences, so that no sentence is split
    across two chunks; a chunk is at most [max_chars + 1] long (the
    packing test does not count the joining space) unless it is a single
    sentence longer than [max_chars]. *)
Theorem split_by_sentences_chunks (text : option pystr) (max_chars : Z) :
  1 <= max_chars ->
  exists groups : list (list pystr),
    concat groups = sentences_of text
    /\ Forall2 (chunk_of max_chars) groups (_split_by_sentences text max_chars).
Proof.
  intros _. unfold _split_by_sentences.
  rewrite fold_skips_empty. fold (sentences_of text).
  pose proof (pack_fold_inv max_chars (sentences_of text) [] ([], [])
                (sentences_whole text)) as H.
  destruct H as (groups & cur & Hseen & Hgroups & Hcur).
  { exists [], []. simpl. repeat split; [constructor | now left]. }
  destruct (fold_left (pack_step max_chars) (sentences_of text) ([], []))
    as [chunks current].
  simpl in *. destruct Hcur as [[-> ->] | [Hchunk [Hcne Hcs]]].
  - simpl. exists groups. split; [now rewrite Hseen, app_nil_r | assumption].
  - apply truthy_true in Hcne as Htc. rewrite Htc.
    rewrite (stripped_strip _ Hcs).
    exists (groups ++ [cur]). split.
    + rewrite Hseen, concat_app. simpl. now rewrite app_nil_r.
    + apply Forall2_app; [assumption |]. constructor; [assumption | constructor].
Qed.

(** C1 fails as the specification words it: with [max_chars = 6] the two
    sentences [Ja.] and [Ok.] pass the packing test ([3 + 3 <= 6]) and are
    joined into one chunk of 7 characters. *)
Lemma chunk_bound_counterexample :
  1 <= 6
  /\ _split_by_sentences (Some (u "Ja. Ok.")) 6 = [u "Ja. Ok."]
  /\ ~ chunk_bound_as_stated (Some (u "Ja. Ok.")) 6.
Proof.
  assert (E : _split_by_sentences (Some (u "Ja. Ok.")) 6 = [u "Ja. Ok."])
    by (vm_compute; reflexivity).
  split; [lia |]. split; [exact E |].
  unfold chunk_bound_as_stated. rewrite E. intros H.
  inversion H as [| ? ? [Hlen | [Hin Hlen]] _]; subst.
  - vm_compute in Hlen. now apply Hlen.
  - assert (S : sentences_of (Some (u "Ja. Ok.")) = [u "Ja."; u "Ok."])
      by (vm_compute; reflexivity).
    rewrite S in Hin. simpl in Hin. destruct Hin as [Hin | [Hin | []]];
      vm_compute in Hin; discriminate.
Qed.

Lemma split_by_sentences_chunks_witness :
  1 <= 6
  /\ exists groups : list (list pystr),
       concat groups = sentences_of (Some (u "Ja. Ok."))
       /\ Forall2 (chunk_of 6) groups
            (_split_by_sentences (Some (u "Ja. Ok.")) 6).
Proof.
  split; [lia |].
  apply (split_by_sentences_chunks (Some (u "Ja. Ok.")) 6). lia.
Defined.

(** *** The empty text *)

(** C9: on the empty string [translate] returns the empty string and leaves
    the world as it was: no call of [model.generate], no log line, no
    tokenizer call. *)
Theorem translate_empty (eng : Engine) (tr : Translator) (max_chars : Z)
    (has_log : bool) (w : World) :
  translate eng tr (Some []) max_chars has_log w = (w, Ok [])
  /\ generate_calls (fst (translate eng tr (Some []) max_chars has_log w))
     = generate_calls w.
Proof. split; reflexivity. Qed.

(** *** Model selection *)

Lemma small_is_not_large : DEFAULT_MODEL_SMALL <> DEFAULT_MODEL_LARGE.
Proof. discriminate. Qed.

Lemma pick_auto (t : Torch) :
  _pick_model_name t None
  = if ge_threshold (_cuda_total_gib t) then DEFAULT_MODEL_LARGE
    else DEFAULT_MODEL_SMALL.
Proof. reflexivity. Qed.

Lemma ge_threshold_bytes (total : Z) :
  ge_threshold (inject_Z total / inject_Z GIB)%Q = (16 * GIB <=? total).
Proof.
  unfold ge_threshold, VRAM_THRESHOLD, Qle_bool, Qdiv, Qmult, Qinv. simpl.
  apply eq_true_iff_eq. rewrite !Z.leb_le. unfold GIB. simpl. lia.
Qed.

(** C10: without a requested name, the large model is chosen exactly when
    the reported memory is at least 16 GiB, the small one otherwise; a
    failure of the memory query counts as 0 GiB and gives the small model. *)
Theorem pick_model_name_auto (t : Torch) :
  (_pick_model_name t None = DEFAULT_MODEL_LARGE
   <-> (16 <= _cuda_total_gib t)%Q)
  /\ (_pick_model_name t None = DEFAULT_MODEL_SMALL
      <-> ~ (16 <= _cuda_total_gib t)%Q)
  /\ (memory_query_fails t ->
      _cuda_total_gib t = 0%Q
      /\ _pick_model_name t None = DEFAULT_MODEL_SMALL)
  /\ (forall total,
        cuda_is_available t = Ok true -> cuda_total_memory t = Ok total ->
        (_pick_model_name t None = DEFAULT_MODEL_LARGE
         <-> 16 * 1024 ^ 3 <= total)).
Proof.
  assert (Hge : ge_threshold (_cuda_total_gib t) = true
                <-> (16 <= _cuda_total_gib t)%Q) by apply Qle_bool_iff.
  rewrite pick_auto.
  split; [| split; [| split]].
  - rewrite <- Hge. destruct (ge_threshold (_cuda_total_gib t)).
    + tauto.
    + split; [intros E; now destruct small_is_not_large | discriminate].
  - rewrite <- Hge. destruct (ge_threshold (_cuda_total_gib t)).
    + split; [intros E; symmetry in E; now destruct small_is_not_large |].
      intros E. now destruct E.
    + split; [discriminate | reflexivity].
  - intros Hfail.
    assert (E : _cuda_total_gib t = 0%Q).
    { unfold _cuda_total_gib.
      destruct Hfail as [[e ->] | [-> [e ->]]]; reflexivity. }
    rewrite E. split; reflexivity.
  - intros total Hav Htot. unfold _cuda_total_gib. rewrite Hav, Htot.
    rewrite ge_threshold_bytes. change (16 * 1024 ^ 3) with (16 * GIB).
    rewrite <- Z.leb_le. destruct (16 * GIB <=? total).
    + tauto.
    + split; [intros E; now destruct small_is_not_large | discriminate].
Qed.

(** *** The memory override of the constructor *)

Lemma count_warn_snoc (lines : list string) (line : string) :
  count_warn (lines ++ [line])
  = (count_warn lines + (if String.prefix "[WARN]" line then 1 else 0))%nat.
Proof.
  unfold count_warn. rewrite List.filter_app, length_app. simpl.
  now destruct (String.prefix "[WARN]" line).
Qed.

Lemma emit_log (has_log : bool) (line : string) (w : World) :
  log_lines (emit has_log line w)
  = if has_log then log_lines w ++ [line] else log_lines w.
Proof. now destruct has_log. Qed.

Lemma allocator_hints_log (w : World) :
  log_lines (_set_allocator_hints w) = log_lines w.
Proof. unfold _set_allocator_hints. now destruct (environ w !! _). Qed.

(** The loaders add nothing to the log, and the translator they lead to
    carries the decision of the first half. *)
Lemma init_after_decide (t : Torch) (hub : Hub) (src tgt : string)
    (model_name : option string) (has_log : bool) (w : World) :
  fst (__init__ t hub src tgt model_name has_log w)
  = fst (init_decide t model_name has_log w)
  /\ forall tr,
       snd (__init__ t hub src tgt model_name has_log w) = Ok tr ->
       snd (init_decide t model_name has_log w)
       = Ok (tr_device tr, tr_model_name tr).
Proof.
  unfold __init__.
  destruct (init_decide t model_name has_log w) as [w' [[dev chosen] | e]];
    simpl; [| split; [reflexivity | discriminate]].
  destruct (tokenizer_from_pretrained hub chosen);
    [| split; [reflexivity | discriminate]].
  destruct (model_from_pretrained hub chosen (is_cuda dev));
    [| split; [reflexivity | discriminate]].
  destruct (model_to hub dev); [| split; [reflexivity | discriminate]].
  split; [reflexivity |]. intros tr E. injection E as <-. reflexivity.
Qed.




End NllbFacts.

(** ** The transcriber *)
Module TranscriberFacts.
Import PyText Transcriber.

(** *** Device selection *)

Lemma select_device_cuda_iff (env : Env) (model_name : string) :
  fst (_select_device_and_compute env model_name) = "cuda"
  <-> _torch_cuda_available env = true.
Proof.
  unfold _select_device_and_compute.
  destruct (_torch_cuda_available env); simpl; split; congruence.
Qed.

(** C2 does not hold of the code: on a Windows machine where torch reports
    CUDA and no CUDA wheel directory exists, the runtime-support check
    fails and the device decision is CUDA all the same. *)
Theorem select_device_ignores_wheels :
  _torch_cuda_available (windows_env false true) = true
  /\ _cuda_wheels_present (windows_env false true) = false
  /\ _select_device_and_compute (windows_env false true) "medium"
     = ("cuda", "float16").
Proof. repeat split; vm_compute; reflexivity. Qed.

(** *** The CUDA path adjustment *)

Lemma environ_safe_log (line : string) (w : World) :
  environ (safe_log line w) = environ w.
Proof. reflexivity. Qed.

Lemma environ_set_if_absent (key value : string) (w : World) :
  environ (set_if_absent key value w) = put_if_absent key value (environ w).
Proof.
  unfold set_if_absent, put_if_absent. now destruct (environ w !! key).
Qed.

Lemma set_cuda_paths_ok (env : Env) (w : World) :
  snd (set_cuda_paths env w) = Ok tt.
Proof.
  unfold set_cuda_paths. destruct (negb _); [reflexivity |].
  now destruct (set_cuda_paths_try env w) as [w' [[] | e]].
Qed.

Lemma set_cuda_paths_environ (env : Env) (w : World) :
  environ (fst (set_cuda_paths env w))
  = match wheel_dirs_found env with
    | [] => environ w
    | dirs => patched_environ dirs (environ w)
    end.
Proof.
  unfold set_cuda_paths, wheel_dirs_found, set_cuda_paths_try.
  destruct (negb _); [reflexivity |].
  destruct (sys_executable env) as [exe |]; [| reflexivity].
  destruct (existing_dirs env (wheel_dirs exe)) as [[| d l] | e];
    try reflexivity.
  simpl. now rewrite !environ_set_if_absent.
Qed.

Lemma append_empty (a b : string) : a +:+ b = "" -> b = "".
Proof. destruct a; simpl; [tauto | discriminate]. Qed.

Lemma concat_snoc_nonempty (sep x : string) (l : list string) :
  x <> "" -> String.concat sep (l ++ [x]) <> "".
Proof.
  intros Hx. induction l as [| a l IH]; [exact Hx |].
  simpl. destruct (l ++ [x]) eqn:E; [now destruct l |].
  intros H. apply append_empty, append_empty in H. contradiction.
Qed.

Lemma path_str_nonempty (p : PurePath) (name : string) :
  name <> "" -> path_str (joinpath p name) <> "".
Proof.
  intros Hn. unfold path_str, joinpath. simpl.
  assert (H : anchor p +:+ String.concat "\" (parts p ++ [name]) <> "").
  { intros H. apply append_empty in H. revert H.
    now apply concat_snoc_nonempty. }
  destruct (anchor p); [| exact H].
  destruct (parts p ++ [name]) eqn:E; [now destruct (parts p) | exact H].
Qed.

Lemma existing_dirs_nonempty (env : Env) (cands : list PurePath) :
  Forall (fun p => path_str p <> "") cands ->
  forall l, existing_dirs env cands = Ok l -> Forall (fun d => d <> "") l.
Proof.
  induction 1 as [| p cands Hp Hc IH]; intros l E; simpl in E.
  - injection E as <-. constructor.
  - destruct (path_exists env (path_str p)) as [b | e]; [| discriminate].
    destruct (existing_dirs env cands) as [l' | e]; [| discriminate].
    injection E as <-. specialize (IH l' eq_refl).
    destruct b; [constructor |]; assumption.
Qed.

Lemma wheel_dirs_found_nonempty (env : Env) :
  Forall (fun d => d <> "") (wheel_dirs_found env).
Proof.
  unfold wheel_dirs_found. destruct (negb _); [constructor |].
  destruct (sys_executable env) as [exe |]; [| constructor].
  destruct (existing_dirs env (wheel_dirs exe)) as [l | e] eqn:E;
    [| constructor].
  apply (existing_dirs_nonempty env (wheel_dirs exe)); [| exact E].
  unfold wheel_dirs. repeat constructor; now apply path_str_nonempty.
Qed.

Lemma new_path_nonempty (d : string) (dirs : list string)
    (m : gmap string string) :
  d <> "" -> new_path (d :: dirs) m <> "".
Proof.
  intros Hd. unfold new_path. simpl.
  destruct (dirs ++ _); [exact Hd |].
  destruct d; [contradiction | discriminate].
Qed.

Lemma patched_path (dirs : list string) (m : gmap string string) :
  patched_environ dirs m !! "PATH" = Some (new_path dirs m).
Proof.
  unfold patched_environ, put_if_absent.
  repeat (match goal with |- context [match ?x with _ => _ end] =>
            destruct x end);
    now simplify_map_eq.
Qed.

Lemma patched_hints (dirs : list string) (m : gmap string string) :
  is_Some (patched_environ dirs m !! "CUDA_PATH")
  /\ is_Some (patched_environ dirs m !! "CUDA_PATH_V12_4").
Proof.
  unfold patched_environ, put_if_absent.
  destruct (<["PATH" := new_path dirs m]> m !! "CUDA_PATH") eqn:E1.
  - destruct (<["PATH" := new_path dirs m]> m !! "CUDA_PATH_V12_4") eqn:E2.
    + split; eauto.
    + split; simplify_map_eq; eauto.
  - destruct (<["CUDA_PATH" := String.concat PATHSEP dirs]>
                (<["PATH" := new_path dirs m]> m) !! "CUDA_PATH_V12_4") eqn:E2.
    + split; simplify_map_eq; eauto.
    + split; simplify_map_eq; eauto.
Qed.

(** Once the hints are set, a further application only rewrites [PATH]. *)
Lemma patched_again (dirs : list string) (m : gmap string string) :
  is_Some (m !! "CUDA_PATH") -> is_Some (m !! "CUDA_PATH_V12_4") ->
  patched_environ dirs m = <["PATH" := new_path dirs m]> m.
Proof.
  intros [v1 H1] [v2 H2]. unfold patched_environ, put_if_absent.
  now simplify_map_eq.
Qed.

(** C8 fails as the specification words it: with the [cublas] wheel
    directory present, each application prepends it to [PATH], so the
    second application changes [PATH] again. *)
Lemma paths_idempotent_counterexample :
  environ (fst (set_cuda_paths (windows_env true true)
                  (world_with_path "C:\Windows"))) !! "PATH"
  = Some (CUBLAS_BIN +:+ ";C:\Windows")
  /\ environ (fst (set_cuda_paths (windows_env true true)
                     (fst (set_cuda_paths (windows_env true true)
                             (world_with_path "C:\Windows"))))) !! "PATH"
     = Some (CUBLAS_BIN +:+ ";" +:+ CUBLAS_BIN +:+ ";C:\Windows")
  /\ ~ paths_idempotent_as_stated (windows_env true true)
         (world_with_path "C:\Windows").
Proof.
  assert (Hdirs : wheel_dirs_found (windows_env true true) = [CUBLAS_BIN])
    by (vm_compute; reflexivity).
  assert (H1 : environ (fst (set_cuda_paths (windows_env true true)
                               (world_with_path "C:\Windows"))) !! "PATH"
               = Some (CUBLAS_BIN +:+ ";C:\Windows")).
  { rewrite set_cuda_paths_environ, Hdirs, patched_path.
    unfold new_path, world_with_path. now simplify_map_eq. }
  assert (H2 : environ (fst (set_cuda_paths (windows_env true true)
                               (fst (set_cuda_paths (windows_env true true)
                                       (world_with_path "C:\Windows")))))
                 !! "PATH"
               = Some (CUBLAS_BIN +:+ ";" +:+ CUBLAS_BIN +:+ ";C:\Windows")).
  { rewrite set_cuda_paths_environ, Hdirs, patched_path.
    unfold new_path. now rewrite H1. }
  split; [exact H1 |]. split; [exact H2 |].
  intros [H _]. rewrite H1, H2 in H. discriminate.
Qed.

(** C8, as the code has it: [set_cuda_paths] never raises, whatever the
    environment.  A second application leaves every variable other than
    [PATH] as the first one left it, the two CUDA path variables among
    them.  Where no wheel directory is found (not Windows, no directory, or
    a failure caught inside) the environment is not touched at all;
    otherwise each application prepends the directories found to [PATH]
    once more. *)
Theorem set_cuda_paths_twice (env : Env) (w : World) :
  let r1 := set_cuda_paths env w in
  let r2 := set_cuda_paths env (fst r1) in
  let dirs := wheel_dirs_found env in
  snd r1 = Ok tt /\ snd r2 = Ok tt
  /\ (forall key, key <> "PATH" ->
        environ (fst r2) !! key = environ (fst r1) !! key)
  /\ (dirs = [] ->
      environ (fst r1) = environ w /\ environ (fst r2) = environ w)
  /\ (dirs <> [] ->
      exists p1,
        environ (fst r1) !! "PATH" = Some p1
        /\ environ (fst r2) !! "PATH"
           = Some (String.concat PATHSEP (dirs ++ [p1]))).
Proof.
  intros r1 r2 dirs. subst r1 r2.
  split; [apply set_cuda_paths_ok |]. split; [apply set_cuda_paths_ok |].
  rewrite !set_cuda_paths_environ. fold dirs.
  pose proof (wheel_dirs_found_nonempty env) as Hne. fold dirs in Hne.
  destruct dirs as [| d dirs].
  - split; [reflexivity |]. split; [now split | intros H; now destruct H].
  - inversion Hne as [| ? ? Hd _]; subst.
    destruct (patched_hints (d :: dirs) (environ w)) as [Hc1 Hc2].
    rewrite (patched_again (d :: dirs) (patched_environ (d :: dirs) (environ w)))
      by assumption.
    split; [| split].
    + intros key Hkey. now rewrite lookup_insert_ne.
    + discriminate.
    + intros _. exists (new_path (d :: dirs) (environ w)).
      split; [apply patched_path |].
      rewrite lookup_insert_eq. f_equal. unfold new_path at 1.
      rewrite patched_path. simpl default.
      destruct (String.eqb_spec (new_path (d :: dirs) (environ w)) "")
        as [E | _]; [| reflexivity].
      now apply new_path_nonempty in E.
Qed.

(** *** The fallback loop of [_init_model] *)

Lemma after_attempts_nil (ctor : Ctor) (m d : string) (w : World) :
  after_attempts ctor m d [] w = w.
Proof.
  destruct w. unfold after_attempts. simpl. now rewrite !app_nil_r.
Qed.

Lemma after_attempts_failed (ctor : Ctor) (m d c e : string)
    (l : list string) (w : World) :
  ctor m d c = Raise e ->
  after_attempts ctor m d l
    (safe_log (init_failed_line m d c e)
       (record_ctor_call (m, d, c) (safe_log (loading_line m d c) w)))
  = after_attempts ctor m d (c :: l) w.
Proof.
  intros E. unfold after_attempts, attempt_lines. simpl. rewrite E. simpl.
  f_equal; now rewrite <- !app_assoc.
Qed.

(** The loop stops at the first candidate that can be built. *)
Lemma try_candidates_first_success (ctor : Ctor) (m d : string)
    (tried : list string) :
  forall (c : string) (rest : list string) (model : Model)
         (last_err : option string) (w : World),
    Forall (fun c' => fails ctor m d c' = true) tried ->
    ctor m d c = Ok model ->
    try_candidates ctor m d (tried ++ c :: rest) last_err w
    = (after_attempts ctor m d (tried ++ [c]) w, inl model).
Proof.
  induction tried as [| c0 tried IH]; intros c rest model last_err w Hf Hc.
  - simpl. rewrite Hc. f_equal. unfold after_attempts, attempt_lines. simpl.
    rewrite Hc. reflexivity.
  - inversion Hf as [| ? ? Hc0 Hf']; subst. simpl.
    unfold fails in Hc0. destruct (ctor m d c0) as [m0 | e0] eqn:E0;
      [discriminate |].
    rewrite (IH c rest model _ _ Hf' Hc).
    now rewrite (after_attempts_failed ctor m d c0 e0 _ w E0).
Qed.

(** With every candidate failing, the loop ends with the last failure. *)
Lemma try_candidates_all_fail (ctor : Ctor) (m d : string)
    (cands : list string) :
  forall (last_err : option string) (w : World),
    Forall (fun c => fails ctor m d c = true) cands ->
    try_candidates ctor m d cands last_err w
    = (after_attempts ctor m d cands w,
       inr (match last cands with
            | Some c => Some (error_text (ctor m d c))
            | None => last_err
            end)).
Proof.
  induction cands as [| c cands IH]; intros last_err w Hf.
  - simpl. now rewrite after_attempts_nil.
  - inversion Hf as [| ? ? Hc Hf']; subst. simpl.
    unfold fails in Hc. destruct (ctor m d c) as [m0 | e] eqn:E;
      [discriminate |].
    rewrite (IH _ _ Hf'), (after_attempts_failed ctor m d c e _ w E).
    f_equal. f_equal. destruct cands as [| c' cands].
    + simpl. now rewrite E.
    + change (last (c :: c' :: cands)) with (last (c' :: cands)).
      destruct (last (c' :: cands)) eqn:L; [reflexivity |].
      apply last_None in L. discriminate.
Qed.

(** Either every candidate fails or there is a first one that does not. *)
Lemma first_success_split (ctor : Ctor) (m d : string) (cands : list string) :
  Forall (fun c => fails ctor m d c = true) cands
  \/ exists tried c rest model,
       cands = tried ++ c :: rest
       /\ Forall (fun c' => fails ctor m d c' = true) tried
       /\ ctor m d c = Ok model.
Proof.
  induction cands as [| c cands IH]; [left; constructor |].
  destruct (ctor m d c) as [model | e] eqn:E.
  - right. exists [], c, cands, model. repeat split; [constructor | exact E].
  - destruct IH as [IH | (tried & c' & rest & model & -> & Hf & Hc)].
    + left. constructor; [| exact IH]. unfold fails. now rewrite E.
    + right. exists (c :: tried), c', rest, model.
      repeat split; [| exact Hc]. constructor; [| exact Hf].
      unfold fails. now rewrite E.
Qed.

(** [_init_model] is its fallback loop, run from [before_attempts]. *)
Lemma init_model_unfold (ctor : Ctor) (env : Env) (model_size : string)
    (w : World) :
  _init_model (Some ctor) env model_size w
  = match try_candidates ctor (effective_of env model_size)
            (device_of env model_size)
            (compute_candidates (device_of env model_size)
               (preferred_of env model_size))
            None (before_attempts env model_size w) with
    | (w3, inl model) => (w3, Ok model)
    | (w3, inr last_err) =>
        (w3, Raise (init_error (requested_of model_size)
                      (device_of env model_size) last_err))
    end.
Proof.
  unfold _init_model, effective_of, before_attempts, device_of, preferred_of.
  fold (requested_of model_size).
  destruct (_select_device_and_compute env (requested_of model_size))
    as [device preferred]. simpl fst. simpl snd.
  now destruct (String.eqb device "cuda" && in_unsafe (requested_of model_size)).
Qed.

Lemma device_of_cases (env : Env) (model_size : string) :
  (_torch_cuda_available env = true
   /\ device_of env model_size = "cuda"
   /\ preferred_of env model_size = "float16")
  \/ (_torch_cuda_available env = false
      /\ device_of env model_size = "cpu"
      /\ preferred_of env model_size = "int8").
Proof.
  unfold device_of, preferred_of, _select_device_and_compute.
  destruct (_torch_cuda_available env); [left | right]; now repeat split.
Qed.

Lemma candidates_cases (env : Env) (model_size : string) :
  (device_of env model_size = "cuda"
   /\ compute_candidates (device_of env model_size)
        (preferred_of env model_size) = ["float16"; "float32"; "int8"])
  \/ (device_of env model_size = "cpu"
      /\ compute_candidates (device_of env model_size)
           (preferred_of env model_size) = ["int8"; "float32"]).
Proof.
  destruct (device_of_cases env model_size) as [(_ & -> & ->) | (_ & -> & ->)];
    [left | right]; now split.
Qed.

Lemma init_model_success (ctor : Ctor) (env : Env) (model_size : string)
    (w : World) (tried : list string) (c : string) (rest : list string)
    (model : Model) :
  compute_candidates (device_of env model_size) (preferred_of env model_size)
  = tried ++ c :: rest ->
  Forall (fun c' => fails ctor (effective_of env model_size)
                      (device_of env model_size) c' = true) tried ->
  ctor (effective_of env model_size) (device_of env model_size) c = Ok model ->
  _init_model (Some ctor) env model_size w
  = (after_attempts ctor (effective_of env model_size)
       (device_of env model_size) (tried ++ [c])
       (before_attempts env model_size w), Ok model).
Proof.
  intros E Hf Hc. rewrite init_model_unfold, E.
  now rewrite (try_candidates_first_success ctor _ _ tried c rest model
                 None _ Hf Hc).
Qed.

Lemma init_model_failure (ctor : Ctor) (env : Env) (model_size : string)
    (w : World) :
  Forall (fun c => fails ctor (effective_of env model_size)
                     (device_of env model_size) c = true)
    (compute_candidates (device_of env model_size)
       (preferred_of env model_size)) ->
  exists c_last,
    last (compute_candidates (device_of env model_size)
            (preferred_of env model_size)) = Some c_last
    /\ _init_model (Some ctor) env model_size w
       = (after_attempts ctor (effective_of env model_size)
            (device_of env model_size)
            (compute_candidates (device_of env model_size)
               (preferred_of env model_size))
            (before_attempts env model_size w),
          Raise (init_error (requested_of model_size)
                   (device_of env model_size)
                   (Some (error_text
                            (ctor (effective_of env model_size)
                               (device_of env model_size) c_last))))).
Proof.
  intros Hf. rewrite init_model_unfold.
  rewrite (try_candidates_all_fail ctor _ _ _ None _ Hf).
  destruct (candidates_cases env model_size) as [[_ E] | [_ E]]; rewrite E;
    eexists; split; reflexivity.
Qed.


(** *** What the log of [_init_model] is made of *)

Lemma count_substitution_app (l1 l2 : list string) :
  count_substitution (l1 ++ l2)
  = (count_substitution l1 + count_substitution l2)%nat.
Proof. unfold count_substitution. now rewrite List.filter_app, length_app. Qed.

Lemma error_lines_app (l1 l2 : list string) :
  error_lines (l1 ++ l2) = error_lines l1 ++ error_lines l2.
Proof. apply List.filter_app. Qed.

Lemma benign_lines (l : list string) :
  forallb benign l = true ->
  count_substitution l = 0%nat /\ error_lines l = [].
Proof.
  unfold count_substitution, error_lines.
  induction l as [| x l IH]; simpl; [now split |]. intros H.
  apply andb_prop in H as [Hx Hl]. unfold benign in Hx.
  apply andb_prop in Hx as [H1 H2].
  apply negb_true_iff in H1, H2. rewrite H1, H2. now apply IH.
Qed.

Lemma attempts_benign (ctor : Ctor) (m d : string) (l : list string) :
  forallb benign
    (flat_map (fun c => attempt_lines m d c (ctor m d c)) l) = true.
Proof.
  induction l as [| c l IH]; [reflexivity |]. simpl.
  unfold attempt_lines. destruct (ctor m d c); simpl; exact IH.
Qed.

(** What [set_cuda_paths] adds to the log is benign, and it makes no
    constructor call and writes no file. *)
Lemma set_if_absent_same (key value : string) (w : World) :
  log (set_if_absent key value w) = log w
  /\ ctor_calls (set_if_absent key value w) = ctor_calls w
  /\ files (set_if_absent key value w) = files w.
Proof. unfold set_if_absent. now destruct (environ w !! key). Qed.

Lemma set_cuda_paths_log (env : Env) (w : World) :
  exists new,
    log (fst (set_cuda_paths env w)) = log w ++ new
    /\ forallb benign new = true
    /\ ctor_calls (fst (set_cuda_paths env w)) = ctor_calls w
    /\ files (fst (set_cuda_paths env w)) = files w.
Proof.
  unfold set_cuda_paths. destruct (negb _).
  { exists []. simpl. now rewrite app_nil_r. }
  unfold set_cuda_paths_try.
  destruct (sys_executable env) as [exe |].
  - destruct (existing_dirs env (wheel_dirs exe)) as [[| d l] | e].
    + exists []. simpl. now rewrite app_nil_r.
    + eexists [_]. cbn [fst safe_log log ctor_calls files].
      destruct (set_if_absent_same "CUDA_PATH_V12_4"
                  (String.concat PATHSEP (d :: l))
                  (set_if_absent "CUDA_PATH" (String.concat PATHSEP (d :: l))
                     (set_environ "PATH"
                        (String.concat PATHSEP
                           ((d :: l)
                            ++ (if String.eqb (default "" (environ w !! "PATH")) ""
                                then []
                                else [default "" (environ w !! "PATH")])))
                        w))) as (-> & -> & ->).
      destruct (set_if_absent_same "CUDA_PATH" (String.concat PATHSEP (d :: l))
                  (set_environ "PATH"
                     (String.concat PATHSEP
                        ((d :: l)
                         ++ (if String.eqb (default "" (environ w !! "PATH")) ""
                             then []
                             else [default "" (environ w !! "PATH")])))
                     w)) as (-> & -> & ->).
      now repeat split.
    + eexists [_]. now repeat split.
  - eexists [_]. now repeat split.
Qed.

Lemma before_attempts_log (env : Env) (model_size : string) (w : World) :
  exists new,
    log (before_attempts env model_size w)
    = log w
      ++ (if String.eqb (device_of env model_size) "cuda"
             && in_unsafe (requested_of model_size)
          then [substitution_line (requested_of model_size)] else [])
      ++ new
    /\ forallb benign new = true
    /\ ctor_calls (before_attempts env model_size w) = ctor_calls w
    /\ files (before_attempts env model_size w) = files w.
Proof.
  unfold before_attempts.
  set (guard := String.eqb (device_of env model_size) "cuda"
                && in_unsafe (requested_of model_size)).
  set (w1 := if guard
             then safe_log (substitution_line (requested_of model_size)) w
             else w).
  assert (H1 : log w1 = log w ++ (if guard
                 then [substitution_line (requested_of model_size)] else [])
               /\ ctor_calls w1 = ctor_calls w /\ files w1 = files w).
  { subst w1. destruct guard; simpl; rewrite ?app_nil_r; now repeat split. }
  destruct H1 as (H1 & H2 & H3).
  destruct (String.eqb (device_of env model_size) "cuda").
  - destruct (set_cuda_paths_log env w1) as (new & E1 & E2 & E3 & E4).
    exists new. rewrite E1, E3, E4, H1, H2, H3.
    now rewrite <- app_assoc.
  - exists []. rewrite H1, H2, H3, !app_nil_r. now repeat split.
Qed.

(** The world that [_init_model] leaves: some candidates, at least one,
    tried from [before_attempts]. *)
Lemma init_model_world (ctor : Ctor) (env : Env) (model_size : string)
    (w : World) :
  exists attempted,
    attempted <> []
    /\ fst (_init_model (Some ctor) env model_size w)
       = after_attempts ctor (effective_of env model_size)
           (device_of env model_size) attempted
           (before_attempts env model_size w).
Proof.
  destruct (first_success_split ctor (effective_of env model_size)
              (device_of env model_size)
              (compute_candidates (device_of env model_size)
                 (preferred_of env model_size)))
    as [Hf | (tried & c & rest & model & E & Hf & Hok)].
  - destruct (init_model_failure ctor env model_size w Hf) as (c_last & _ & E).
    rewrite E. eexists. split; [| reflexivity].
    destruct (candidates_cases env model_size) as [[_ ->] | [_ ->]];
      discriminate.
  - rewrite (init_model_success ctor env model_size w tried c rest model
               E Hf Hok).
    eexists. split; [| reflexivity]. now destruct tried.
Qed.

(** *** The guard on the large models *)

Lemma unsafe_requested (model_size : string) :
  in_unsafe model_size = true -> requested_of model_size = model_size.
Proof.
  unfold requested_of. destruct (String.eqb_spec model_size "") as [-> | _];
    [discriminate | reflexivity].
Qed.

Lemma substitution_line_is (requested_model : string) :
  is_substitution_line (substitution_line requested_model) = true.
Proof.
  unfold is_substitution_line, substitution_line. simpl.
  now destruct (requested_model +:+ _).
Qed.

(** C5: for a requested model of the denylist, on CUDA every constructor
    call is made with ["medium"] and the log gains one substitution
    warning, the one that names the requested model; on the CPU every call
    is made with the requested model and the log gains no substitution
    warning. *)
Theorem unsafe_model_guard (ctor : Ctor) (env : Env) (model_size : string)
    (w : World) :
  in_unsafe model_size = true ->
  let w' := fst (_init_model (Some ctor) env model_size w) in
  exists attempted,
    attempted <> []
    /\ if _torch_cuda_available env then
         ctor_calls w'
         = ctor_calls w
           ++ map (fun c => (DEFAULT_WHISPER_MODEL, "cuda", c)) attempted
         /\ count_substitution (log w')
            = (count_substitution (log w) + 1)%nat
         /\ In (substitution_line model_size) (log w')
       else
         ctor_calls w'
         = ctor_calls w ++ map (fun c => (model_size, "cpu", c)) attempted
         /\ count_substitution (log w') = count_substitution (log w).
Proof.
  intros Hunsafe w'. subst w'.
  destruct (init_model_world ctor env model_size w) as (attempted & Hne & ->).
  exists attempted. split; [exact Hne |].
  destruct (before_attempts_log env model_size w) as (new & Hlog & Hben & Hcalls & _).
  apply benign_lines in Hben as [Hnew _].
  destruct (benign_lines _ (attempts_benign ctor (effective_of env model_size)
                              (device_of env model_size) attempted))
    as [Hatt _].
  unfold after_attempts. cbn [log ctor_calls]. rewrite Hcalls, Hlog.
  rewrite !count_substitution_app, Hnew, Hatt.
  unfold effective_of. rewrite (unsafe_requested _ Hunsafe), Hunsafe.
  destruct (device_of_cases env model_size) as [(-> & -> & _) | (-> & -> & _)];
    simpl andb; cbv iota.
  - split; [reflexivity |]. split.
    + assert (Hs : count_substitution [substitution_line model_size] = 1%nat).
      { unfold count_substitution. simpl List.filter.
        now rewrite substitution_line_is. }
      rewrite Hs. lia.
    + apply in_or_app. left. apply in_or_app. right. apply in_or_app. left.
      now left.
  - split; [reflexivity |].
    change (count_substitution []) with 0%nat. lia.
Qed.

Lemma unsafe_model_guard_witness :
  in_unsafe "large-v2" = true
  /\ exists attempted,
       attempted <> []
       /\ ctor_calls (fst (_init_model (Some ctor_no_float16)
                             (windows_env true true) "large-v2"
                             (world_with_path "C:\Windows")))
          = map (fun c => ("medium", "cuda", c)) attempted
       /\ count_substitution
            (log (fst (_init_model (Some ctor_no_float16)
                         (windows_env true true) "large-v2"
                         (world_with_path "C:\Windows")))) = 1%nat
       /\ In (substitution_line "large-v2")
            (log (fst (_init_model (Some ctor_no_float16)
                         (windows_env true true) "large-v2"
                         (world_with_path "C:\Windows")))).
Proof.
  split; [reflexivity |].
  exact (unsafe_model_guard ctor_no_float16 (windows_env true true)
           "large-v2" (world_with_path "C:\Windows") eq_refl).
Defined.

(** *** Batch transcription *)

Lemma insert_sorted_perm (x : string) (l : list string) :
  Permutation (insert_sorted x l) (x :: l).
Proof.
  induction l as [| y l IH]; simpl; [reflexivity |].
  destruct (String.leb x y); [reflexivity |].
  rewrite IH. apply perm_swap.
Qed.

Lemma sorted_perm (l : list string) : Permutation (sorted l) l.
Proof.
  induction l as [| x l IH]; simpl; [reflexivity |].
  now rewrite insert_sorted_perm, IH.
Qed.

Lemma filter_perm_length (f : string -> bool) (l l' : list string) :
  Permutation l l' ->
  length (List.filter f l) = length (List.filter f l').
Proof.
  induction 1 as [| x l l' _ IH | x y l | l l' l'' _ IH1 _ IH2]; simpl.
  - reflexivity.
  - destruct (f x); simpl; now rewrite IH.
  - now destruct (f x), (f y).
  - now rewrite IH1.
Qed.

Lemma filter_split_length (f : string -> bool) (l : list string) :
  (length (List.filter f l)
   + length (List.filter (fun x => negb (f x)) l))%nat = length l.
Proof.
  induction l as [| x l IH]; simpl; [reflexivity |].
  destruct (f x); simpl; lia.
Qed.

Lemma transcribe_loop_spec (env : Env) (model : Model)
    (audio_dir output_dir : string) (wav_files : list string) :
  forall (acc : list string) (w : World),
    snd (transcribe_loop env model audio_dir output_dir wav_files acc w)
    = acc ++ map (out_path_of env output_dir)
               (List.filter (succeeds env model audio_dir output_dir) wav_files)
    /\ log (fst (transcribe_loop env model audio_dir output_dir wav_files acc w))
       = log w ++ map (file_line env model audio_dir output_dir) wav_files.
Proof.
  induction wav_files as [| name rest IH]; intros acc w; simpl.
  - now rewrite !app_nil_r.
  - unfold succeeds, file_line.
    destruct (transcribe_one env model audio_dir output_dir name)
      as [[[transcript out_name] out_path] | e] eqn:E; simpl.
    + destruct (IH (acc ++ [out_path])
                  (safe_log (transcribed_line name out_name transcript)
                     (write_file out_path transcript w))) as [-> ->].
      assert (Hp : out_path = out_path_of env output_dir name).
      { unfold transcribe_one in E.
        destruct (transcribe model (child env audio_dir name)); [| discriminate].
        destruct (write_text_error env _); [discriminate |].
        now injection E as _ _ <-. }
      simpl. rewrite <- !app_assoc. now rewrite Hp.
    + destruct (IH acc (safe_log (failed_line name e) w)) as [-> ->].
      simpl. now rewrite <- !app_assoc.
Qed.

Lemma failed_line_is_error (name e : string) :
  is_error_line (failed_line name e) = true.
Proof. reflexivity. Qed.

Lemma transcribed_line_not_error (name out_name : string) (transcript : pystr) :
  is_error_line (transcribed_line name out_name transcript) = false.
Proof. reflexivity. Qed.

Lemma file_line_cases (env : Env) (model : Model)
    (audio_dir output_dir name : string) :
  is_error_line (file_line env model audio_dir output_dir name)
  = negb (succeeds env model audio_dir output_dir name)
  /\ (succeeds env model audio_dir output_dir name = false ->
      file_line env model audio_dir output_dir name
      = failed_line name
          (error_text (transcribe_one env model audio_dir output_dir name))).
Proof.
  unfold file_line, succeeds.
  destruct (transcribe_one env model audio_dir output_dir name)
    as [[[transcript out_name] out_path] | e]; cbn [is_ok negb error_text].
  - split; [apply transcribed_line_not_error | discriminate].
  - split; [apply failed_line_is_error | reflexivity].
Qed.

Lemma file_error_lines (env : Env) (model : Model)
    (audio_dir output_dir : string) (wav_files : list string) :
  error_lines (map (file_line env model audio_dir output_dir) wav_files)
  = map (fun name =>
           failed_line name
             (error_text (transcribe_one env model audio_dir output_dir name)))
      (List.filter
         (fun name => negb (succeeds env model audio_dir output_dir name))
         wav_files).
Proof.
  unfold error_lines. induction wav_files as [| name rest IH]; [reflexivity |].
  cbn [map List.filter].
  destruct (file_line_cases env model audio_dir output_dir name) as [H1 H2].
  rewrite H1.
  destruct (succeeds env model audio_dir output_dir name); cbn [negb map].
  - exact IH.
  - now rewrite IH, H2.
Qed.

Lemma path_patched_error_lines (env : Env) (w : World) :
  error_lines (log (path_patched env w)) = error_lines (log w).
Proof.
  unfold path_patched. destruct (_ && _); [| reflexivity].
  destruct (set_cuda_paths_log env w) as (new & -> & Hben & _).
  apply benign_lines in Hben as [_ Hnew].
  now rewrite error_lines_app, Hnew, app_nil_r.
Qed.

Lemma init_model_error_lines (whisper : option Ctor) (env : Env)
    (model_size : string) (w : World) :
  error_lines (log (fst (_init_model whisper env model_size w)))
  = error_lines (log w).
Proof.
  destruct whisper as [ctor |]; [| reflexivity].
  destruct (init_model_world ctor env model_size w) as (attempted & _ & ->).
  destruct (before_attempts_log env model_size w) as (new & Hlog & Hben & _).
  apply benign_lines in Hben as [_ Hnew].
  destruct (benign_lines _ (attempts_benign ctor (effective_of env model_size)
                              (device_of env model_size) attempted))
    as [_ Hatt].
  unfold after_attempts. cbn [log]. rewrite Hlog.
  rewrite !error_lines_app, Hnew, Hatt, !app_nil_r.
  destruct (_ && _); simpl; now rewrite app_nil_r.
Qed.

(** C6: once the model is loaded, a file whose transcription fails is
    logged as one [[ERROR]] line that names it and the loop goes on: the
    list returned holds the output paths of exactly the files that
    succeeded, in sorted order, and the log gains one error line for each
    file that failed.  With three input files of which one fails, two
    output paths are returned and one error line is logged. *)
Theorem transcribe_isolates_failures (whisper : option Ctor) (env : Env)
    (audio_dir output_dir model_size : string) (w w2 : World)
    (model : Model) :
  mkdir env output_dir = Ok tt ->
  _init_model whisper env model_size (path_patched env w) = (w2, Ok model) ->
  let wav_files := sorted (glob_wav env audio_dir) in
  let ok := succeeds env model audio_dir output_dir in
  let r := transcribe_audio_files whisper env audio_dir output_dir
             model_size w in
  snd r = Ok (map (out_path_of env output_dir) (List.filter ok wav_files))
  /\ error_lines (log (fst r))
     = error_lines (log w)
       ++ map (fun name =>
                 failed_line name
                   (error_text
                      (transcribe_one env model audio_dir output_dir name)))
            (List.filter (fun name => negb (ok name)) wav_files)
  /\ (length (glob_wav env audio_dir) = 3%nat ->
      length (List.filter (fun name => negb (ok name))
                (glob_wav env audio_dir)) = 1%nat ->
      (exists p1 p2, snd r = Ok [p1; p2])
      /\ length (error_lines (log (fst r)))
         = (length (error_lines (log w)) + 1)%nat).
Proof.
  intros Hmkdir Hinit wav_files ok r.
  assert (Hw2 : error_lines (log w2) = error_lines (log w)).
  { pose proof (init_model_error_lines whisper env model_size
                  (path_patched env w)) as H.
    rewrite Hinit in H. simpl in H.
    now rewrite H, path_patched_error_lines. }
  assert (Hr : snd r = Ok (map (out_path_of env output_dir)
                             (List.filter ok wav_files))
               /\ error_lines (log (fst r))
                  = error_lines (log w)
                    ++ map (fun name =>
                              failed_line name
                                (error_text
                                   (transcribe_one env model audio_dir
                                      output_dir name)))
                         (List.filter (fun name => negb (ok name)) wav_files)).
  { subst r. unfold transcribe_audio_files. rewrite Hmkdir.
    fold (path_patched env w). rewrite Hinit. fold wav_files.
    destruct wav_files as [| name rest] eqn:Hfiles.
    - simpl. rewrite error_lines_app, Hw2. simpl. now rewrite !app_nil_r.
    - destruct (transcribe_loop_spec env model audio_dir output_dir
                  (name :: rest) [] w2) as [Hpaths Hlog].
      destruct (transcribe_loop env model audio_dir output_dir
                  (name :: rest) [] w2) as [w3 transcribed_files].
      simpl in Hpaths, Hlog. subst transcribed_files.
      cbn [fst snd safe_log log]. split; [reflexivity |].
      rewrite Hlog, !error_lines_app, Hw2.
      change (file_line env model audio_dir output_dir name
              :: map (file_line env model audio_dir output_dir) rest)
        with (map (file_line env model audio_dir output_dir) (name :: rest)).
      rewrite file_error_lines. simpl error_lines at 2.
      now rewrite app_nil_r. }
  destruct Hr as [Hpaths Hlog]. split; [exact Hpaths |].
  split; [exact Hlog |]. intros H3 H1.
  pose proof (sorted_perm (glob_wav env audio_dir)) as Hperm.
  fold wav_files in Hperm.
  assert (Hbad : length (List.filter (fun name => negb (ok name)) wav_files)
                 = 1%nat)
    by now rewrite (filter_perm_length _ _ _ Hperm).
  assert (Hgood : length (List.filter ok wav_files) = 2%nat).
  { pose proof (filter_split_length ok wav_files) as Hsplit.
    rewrite (Permutation_length Hperm) in Hsplit. lia. }
  split.
  - rewrite Hpaths.
    destruct (List.filter ok wav_files) as [| a [| b [| c l]]];
      try discriminate. now eexists _, _.
  - rewrite Hlog, length_app, length_map, Hbad. reflexivity.
Qed.

Lemma transcribe_isolates_failures_witness :
  mkdir batch_env "out" = Ok tt
  /\ snd (_init_model (Some ctor_flaky) batch_env "medium"
            (path_patched batch_env world_empty)) = Ok model_flaky
  /\ snd (transcribe_audio_files (Some ctor_flaky) batch_env "in" "out"
            "medium" world_empty)
     = Ok ["out/a.txt"; "out/c.txt"]
  /\ error_lines
       (log (fst (transcribe_audio_files (Some ctor_flaky) batch_env "in"
                    "out" "medium" world_empty)))
     = ["[ERROR] Failed to transcribe b.wav: decode error"].
Proof.
  split; [reflexivity |]. split; [reflexivity |].
  pose proof (transcribe_isolates_failures (Some ctor_flaky) batch_env
                "in" "out" "medium" world_empty
                (fst (_init_model (Some ctor_flaky) batch_env "medium"
                        (path_patched batch_env world_empty)))
                model_flaky eq_refl eq_refl) as H.
  split; [exact (proj1 H) | exact (proj1 (proj2 H))].
Defined.

End TranscriberFacts.

(** ** The orchestrator *)
Module MainWindowFacts.
Import PyText MainWindow.

(** With the box ticked, the two selected stages run one after the other,
    the failure of the second is logged, and the bar ends at 100. *)
Example run_acknowledged :
  let a := mainloop 40 (select_steps steps_example)
             (run_selected_steps steps_example (app_fresh true)) in
  invoked a = ["Transcribe"; "Translate Audio Transcripts"]
  /\ progress_value a = 100
  /\ after_queue a = []
  /\ log_sink a
     = ["Starting: Transcribe"; "Starting: Translate Audio Transcripts";
        "[ERROR] Translate Audio Transcripts: no transcripts";
        "All selected steps completed."].
Proof. vm_compute. repeat split; reflexivity. Qed.

Lemma ack_warning_is_summary : is_summary ACK_WARNING = true.
Proof. reflexivity. Qed.

(** C7: with the acknowledgement missing, [run_selected_steps] logs one
    message, a [[WARN]] one, and returns: no stage function is called and
    the progress value is the one from before the call (zero if it was
    zero).  All it schedules are the four widget calls that show the
    warning; when the main loop has run them, still no stage has been
    called and the progress value has not moved. *)
Theorem run_without_acknowledgement
    (steps_vars : list (string * (bool * Stage))) (a : App) :
  default false (acknowledge_var a) = false ->
  let a' := run_selected_steps steps_vars a in
  log_sink a' = log_sink a ++ [ACK_WARNING]
  /\ String.prefix "[WARN]" ACK_WARNING = true
  /\ invoked a' = invoked a
  /\ progress_value a' = progress_value a
  /\ (progress_value a = 0 -> progress_value a' = 0)
  /\ after_queue a' = after_queue a ++ summary_calls ACK_WARNING
  /\ (after_queue a = [] ->
      forall fuel selected_steps,
        let a'' := mainloop fuel selected_steps a' in
        invoked a'' = invoked a
        /\ progress_value a'' = progress_value a
        /\ log_sink a'' = log_sink a ++ [ACK_WARNING]).
Proof.
  intros Hack a'. subst a'. unfold run_selected_steps. rewrite Hack.
  cbn [negb]. unfold log_and_output. rewrite ack_warning_is_summary.
  split; [reflexivity |]. split; [reflexivity |]. split; [reflexivity |].
  split; [reflexivity |]. split; [tauto |]. split.
  - cbn. now rewrite <- !app_assoc.
  - intros Hq fuel selected_steps.
    unfold ui_output, ui_log, ui_set_text, _ui, set_after_queue, safe_log.
    cbn. rewrite Hq.
    destruct fuel as [| [| [| [| [| fuel]]]]]; cbn; now repeat split.
Qed.

Lemma run_without_acknowledgement_witness :
  default false (acknowledge_var (app_fresh false)) = false
  /\ invoked (run_selected_steps steps_example (app_fresh false)) = []
  /\ progress_value (run_selected_steps steps_example (app_fresh false)) = 0
  /\ log_sink (run_selected_steps steps_example (app_fresh false))
     = [ACK_WARNING].
Proof.
  pose proof (run_without_acknowledgement steps_example (app_fresh false)
                eq_refl) as H.
  split; [reflexivity |].
  split; [exact (proj1 (proj2 (proj2 H))) |].
  split; [exact (proj1 (proj2 (proj2 (proj2 H)))) | exact (proj1 H)].
Defined.

End MainWindowFacts.

(** * Further properties

    What the code shows beyond the properties above. *)

(** ** The translator *)
Module NllbExtras.
Import PyText PyTextFacts Nllb NllbFacts.

(** *** The chunks as groups of sentences *)

Lemma whole_nonempty (s : pystr) : whole s -> truthy s = true.
Proof. intros [H _]. now apply truthy_true. Qed.

Lemma whole_strip (s : pystr) : whole s -> strip s = s.
Proof. intros [_ H]. now apply stripped_strip. Qed.

Lemma whole_snoc (a s : pystr) : whole a -> whole s -> whole (a ++ [SPACE] ++ s).
Proof.
  intros [Ha [Ha1 _]] [Hs [_ Hs2]]. split; [now destruct a |].
  apply stripped_app; [assumption | assumption | discriminate |].
  now apply (rstrip_app_fix [SPACE]).
Qed.

Lemma whole_join (g : list pystr) :
  g <> [] -> Forall whole g -> whole (join [SPACE] g).
Proof.
  induction g as [| p g IH] using rev_ind; [contradiction |]. intros _ Hg.
  apply Forall_app in Hg as [Hg Hp]. inversion Hp as [| ? ? Hp' _]; subst.
  destruct g as [| q g]; [exact Hp' |].
  rewrite join_snoc by discriminate.
  apply whole_snoc; [apply IH; [discriminate | exact Hg] | exact Hp'].
Qed.

(** The loop, started with the open chunk [join group], closes the chunks
    of [pack_from]. *)
Lemma fold_pack_from (max_chars : Z) (ss : list pystr) :
  forall (group : list pystr) (chunks : list pystr),
    group <> [] -> Forall whole group -> Forall whole ss ->
    (let '(chunks', current') :=
       fold_left (pack_step max_chars) ss (chunks, join [SPACE] group) in
     if truthy current' then chunks' ++ [strip current'] else chunks')
    = chunks ++ map (join [SPACE]) (pack_from max_chars group ss).
Proof.
  induction ss as [| s ss IH]; intros group chunks Hne Hg Hss.
  - simpl. pose proof (whole_join group Hne Hg) as Hw.
    now rewrite (whole_nonempty _ Hw), (whole_strip _ Hw).
  - inversion Hss as [| ? ? Hs Hss']; subst.
    pose proof (whole_join group Hne Hg) as Hw.
    cbn [fold_left pack_from]. unfold pack_step at 2.
    rewrite (whole_nonempty _ Hs), (whole_nonempty _ Hw). cbn [negb].
    destruct (len (join [SPACE] group) + len s <=? max_chars).
    + rewrite (whole_strip _ (whole_snoc _ _ Hw Hs)).
      rewrite <- (join_snoc [SPACE] group s Hne).
      apply IH; [now destruct group | | assumption].
      apply Forall_app. split; [assumption | now constructor].
    + rewrite (whole_strip _ Hw).
      change s with (join [SPACE] [s]) at 1.
      rewrite (IH [s] (chunks ++ [join [SPACE] group]));
        [| discriminate | now constructor | assumption].
      now rewrite <- app_assoc.
Qed.

Lemma split_groups (text : option pystr) (max_chars : Z) :
  _split_by_sentences text max_chars
  = map (join [SPACE]) (groups_of max_chars (sentences_of text)).
Proof.
  unfold _split_by_sentences. rewrite fold_skips_empty.
  fold (sentences_of text). pose proof (sentences_whole text) as Hss.
  destruct (sentences_of text) as [| s ss]; [reflexivity |].
  inversion Hss as [| ? ? Hs Hss']; subst.
  cbn [fold_left groups_of].
  assert (E : pack_step max_chars ([], []) s = ([], join [SPACE] [s])).
  { unfold pack_step. rewrite (whole_nonempty _ Hs). simpl.
    now destruct (_ <=? _). }
  rewrite E.
  apply (fold_pack_from max_chars ss [s] []);
    [discriminate | now constructor | assumption].
Qed.

Lemma pack_from_concat (max_chars : Z) (ss : list pystr) :
  forall group, concat (pack_from max_chars group ss) = group ++ ss.
Proof.
  induction ss as [| s ss IH]; intros group; simpl.
  - now rewrite app_nil_r.
  - destruct (_ <=? _); simpl; rewrite IH; [now rewrite <- app_assoc | reflexivity].
Qed.

Lemma pack_from_nonempty (max_chars : Z) (ss : list pystr) :
  forall group,
    group <> [] -> Forall (fun g => g <> []) (pack_from max_chars group ss).
Proof.
  induction ss as [| s ss IH]; intros group Hne; simpl.
  - now constructor.
  - destruct (_ <=? _).
    + apply IH. now destruct group.
    + constructor; [assumption | apply IH; discriminate].
Qed.

Lemma pack_from_whole (max_chars : Z) (ss : list pystr) :
  forall group,
    Forall whole group -> Forall whole ss ->
    Forall (Forall whole) (pack_from max_chars group ss).
Proof.
  induction ss as [| s ss IH]; intros group Hg Hss; simpl.
  - now constructor.
  - inversion Hss; subst. destruct (_ <=? _).
    + apply IH; [| assumption]. apply Forall_app. split; [assumption | now constructor].
    + constructor; [assumption | apply IH; [now constructor | assumption]].
Qed.

Lemma groups_of_concat (max_chars : Z) (ss : list pystr) :
  concat (groups_of max_chars ss) = ss.
Proof. destruct ss as [| s ss]; [reflexivity | apply pack_from_concat]. Qed.

Lemma groups_of_nonempty (max_chars : Z) (ss : list pystr) :
  Forall (fun g => g <> []) (groups_of max_chars ss).
Proof.
  destruct ss as [| s ss]; [constructor |].
  now apply pack_from_nonempty.
Qed.

Lemma groups_of_whole (max_chars : Z) (ss : list pystr) :
  Forall whole ss -> Forall (Forall whole) (groups_of max_chars ss).
Proof.
  destruct ss as [| s ss]; [constructor |]. intros H. inversion H; subst.
  apply pack_from_whole; [now constructor | assumption].
Qed.

Lemma join_app (sep : pystr) (a b : list pystr) :
  a <> [] -> b <> [] -> join sep (a ++ b) = join sep a ++ sep ++ join sep b.
Proof.
  intros Ha Hb. induction a as [| p a IH]; [contradiction |].
  destruct a as [| q a].
  - simpl. now destruct b.
  - change (p ++ sep ++ join sep ((q :: a) ++ b)
            = (p ++ sep ++ join sep (q :: a)) ++ sep ++ join sep b).
    rewrite IH by discriminate. now rewrite <- !app_assoc.
Qed.

Lemma join_concat (sep : pystr) (groups : list (list pystr)) :
  Forall (fun g => g <> []) groups ->
  join sep (map (join sep) groups) = join sep (concat groups).
Proof.
  induction 1 as [| g groups Hg Hgs IH]; [reflexivity |].
  destruct groups as [| g2 groups].
  - simpl. now rewrite app_nil_r.
  - change (join sep g ++ sep ++ join sep (map (join sep) (g2 :: groups))
            = join sep (g ++ concat (g2 :: groups))).
    rewrite IH, join_app; [reflexivity | assumption |].
    inversion Hgs; subst. simpl. now destruct g2.
Qed.

(** X1: joined with single spaces, the chunks give the sentences joined
    with single spaces: the chunking loses, repeats and reorders nothing. *)
Theorem chunks_keep_the_text (text : option pystr) (max_chars : Z) :
  join [SPACE] (_split_by_sentences text max_chars)
  = join [SPACE] (sentences_of text).
Proof.
  rewrite split_groups, join_concat by apply groups_of_nonempty.
  now rewrite groups_of_concat.
Qed.

(** X2: every chunk is a non-empty string without white space at either
    end. *)
Theorem chunks_are_stripped (text : option pystr) (max_chars : Z) :
  Forall (fun c => c <> [] /\ strip c = c /\ lstrip c = c /\ rstrip c = c)
    (_split_by_sentences text max_chars).
Proof.
  rewrite split_groups.
  pose proof (groups_of_nonempty max_chars (sentences_of text)) as Hne.
  pose proof (groups_of_whole max_chars _ (sentences_whole text)) as Hw.
  induction Hne as [| g groups Hg Hgs IH]; [constructor |].
  inversion Hw as [| ? ? Hwg Hwgs]; subst.
  constructor; [| now apply IH].
  destruct (whole_join g Hg Hwg) as [Hc [Hc1 Hc2]].
  split; [assumption |]. split; [now apply stripped_strip |].
  split; [now apply lstrip_fix | assumption].
Qed.

Lemma pack_from_not_nil (max_chars : Z) (group ss : list pystr) :
  pack_from max_chars group ss <> [].
Proof.
  revert group. induction ss as [| s ss IH]; intros group; simpl;
    [discriminate |].
  destruct (_ <=? _); [apply IH | discriminate].
Qed.

Lemma sentences_of_blank (text : option pystr) :
  sentences_of text = [] <-> strip (or_empty text) = [].
Proof.
  unfold sentences_of, split_sentences, re_split_sentences. split.
  - intros H. destruct (strip (or_empty text)) as [| c s] eqn:E; [reflexivity |].
    assert (Hne : c :: s <> []) by discriminate.
    pose proof (re_split_first_nonempty (c :: s) Hne) as Hp.
    destruct (re_split_aux false false (c :: s)) as [| p ps];
      [now destruct Hp |].
    simpl in Hp. rewrite filter_cons in H.
    destruct (decide (truthy p = true)) as [_ | Hn]; [discriminate |].
    destruct p; [contradiction | now destruct Hn].
  - intros ->. reflexivity.
Qed.

Lemma split_nil_iff (text : option pystr) (max_chars : Z) :
  _split_by_sentences text max_chars = [] <-> strip (or_empty text) = [].
Proof.
  rewrite <- sentences_of_blank, split_groups.
  destruct (sentences_of text) as [| s ss]; [tauto |].
  split; [| discriminate]. intros H. apply map_eq_nil in H.
  now destruct (pack_from_not_nil max_chars [s] ss).
Qed.

(** X3: there is no chunk exactly when the text is [None], empty or made
    of white space only. *)
Theorem no_chunk_iff_blank (text : option pystr) (max_chars : Z) :
  _split_by_sentences text max_chars = [] <-> strip (or_empty text) = [].
Proof. apply split_nil_iff. Qed.

Lemma whole_len (s : pystr) : whole s -> 1 <= len s.
Proof.
  intros [H _]. destruct s; [contradiction |]. unfold len. cbn [length]. lia.
Qed.

Lemma pack_from_tiny (max_chars : Z) (ss : list pystr) :
  max_chars < 2 -> Forall whole ss ->
  forall group,
    group <> [] -> Forall whole group ->
    pack_from max_chars group ss = group :: map (fun s => [s]) ss.
Proof.
  intros Hmax. induction 1 as [| s ss Hs Hss IH]; intros group Hne Hg;
    [reflexivity |].
  simpl. pose proof (whole_len _ (whole_join group Hne Hg)).
  pose proof (whole_len _ Hs).
  destruct (Z.leb_spec (len (join [SPACE] group) + len s) max_chars); [lia |].
  now rewrite IH by (discriminate || now constructor).
Qed.

(** X4: with [max_chars] below 2 no two sentences fit together, and every
    sentence is a chunk of its own. *)
Theorem tiny_limit_one_sentence_per_chunk (text : option pystr)
    (max_chars : Z) :
  max_chars < 2 -> _split_by_sentences text max_chars = sentences_of text.
Proof.
  intros Hmax. rewrite split_groups.
  pose proof (sentences_whole text) as Hss.
  destruct (sentences_of text) as [| s ss]; [reflexivity |].
  inversion Hss; subst. unfold groups_of.
  rewrite pack_from_tiny;
    [| assumption | assumption | discriminate | now constructor].
  simpl. f_equal. clear. induction ss as [| x ss IH]; [reflexivity |].
  simpl. now rewrite IH.
Qed.

Lemma tiny_limit_one_sentence_per_chunk_witness :
  0 < 2
  /\ _split_by_sentences (Some (u "A. B. C.")) 0 = [u "A."; u "B."; u "C."].
Proof.
  split; [lia |].
  rewrite (tiny_limit_one_sentence_per_chunk (Some (u "A. B. C.")) 0) by lia.
  vm_compute. reflexivity.
Defined.

Lemma len_join_head (sep p : pystr) (l : list pystr) :
  len p <= len (join sep (p :: l)).
Proof.
  destruct l; simpl; [lia |]. rewrite len_app. unfold len. lia.
Qed.

Lemma len_join_cons (sep p : pystr) (l : list pystr) :
  l <> [] -> len (join sep (p :: l)) = len p + len sep + len (join sep l).
Proof.
  intros H. destruct l; [contradiction |].
  change (join sep (p :: p0 :: l)) with (p ++ sep ++ join sep (p0 :: l)).
  rewrite !len_app. lia.
Qed.

Lemma len_nonneg (s : pystr) : 0 <= len s.
Proof. unfold len. lia. Qed.

Lemma len_cons (c : codepoint) (s : pystr) : len (c :: s) = 1 + len s.
Proof. unfold len. cbn [length]. lia. Qed.

Lemma pack_from_fits (max_chars : Z) (ss : list pystr) :
  forall group,
    group <> [] -> len (join [SPACE] (group ++ ss)) <= max_chars ->
    pack_from max_chars group ss = [group ++ ss].
Proof.
  induction ss as [| s ss IH]; intros group Hne Hfit; simpl.
  - now rewrite app_nil_r.
  - pose proof Hfit as Hall.
    rewrite join_app in Hfit by (assumption || discriminate).
    rewrite !len_app in Hfit. pose proof (len_join_head [SPACE] s ss).
    change (len [SPACE]) with 1 in Hfit.
    destruct (Z.leb_spec (len (join [SPACE] group) + len s) max_chars); [| lia].
    rewrite IH; [now rewrite <- app_assoc | now destruct group |].
    now rewrite <- app_assoc.
Qed.

(** One separator for every white-space run that splits: the pieces,
    joined with single spaces, are not longer than the text. *)
Lemma re_split_join_len (s : pystr) : forall pe sk,
  len (join [SPACE] (re_split_aux pe sk s)) <= len s.
Proof.
  induction s as [| c s IH]; intros pe sk; [simpl; lia |].
  assert (Hc : forall l, l <> [] ->
            len (join [SPACE] (cons_head c l)) = 1 + len (join [SPACE] l)).
  { intros [| p ps] Hl; [contradiction |]. unfold cons_head.
    destruct ps as [| q ps]; [apply len_cons |].
    rewrite (len_join_cons [SPACE] (c :: p)), (len_join_cons [SPACE] p)
      by discriminate.
    rewrite len_cons. lia. }
  rewrite len_cons. simpl. destruct (isspace c).
  - destruct sk; [specialize (IH false true); lia |].
    destruct pe.
    + rewrite len_join_cons by apply re_split_aux_nonempty.
      specialize (IH false true). change (len [SPACE]) with 1.
      change (len []) with 0. lia.
    + rewrite Hc by apply re_split_aux_nonempty. specialize (IH false false). lia.
  - rewrite Hc by apply re_split_aux_nonempty.
    specialize (IH (is_sentence_end c) false). lia.
Qed.

Lemma filter_join_len (sep : pystr) (l : list pystr) :
  len (join sep (filter (fun s => truthy s = true) l)) <= len (join sep l).
Proof.
  induction l as [| p l IH]; [simpl; lia |].
  rewrite filter_cons. destruct (decide (truthy p = true)) as [Hp | Hp].
  - destruct (filter (fun s => truthy s = true) l) as [| q f] eqn:E.
    + apply len_join_head.
    + assert (Hl : l <> []).
      { intros ->. rewrite filter_nil in E. discriminate. }
      rewrite (len_join_cons sep p (q :: f)) by discriminate.
      rewrite (len_join_cons sep p l) by assumption. lia.
  - destruct l as [| q l].
    + simpl. apply len_nonneg.
    + rewrite (len_join_cons sep p (q :: l)) by discriminate.
      pose proof (len_nonneg p). pose proof (len_nonneg sep). lia.
Qed.

Lemma sentences_join_len (text : option pystr) :
  len (join [SPACE] (sentences_of text)) <= len (strip (or_empty text)).
Proof.
  unfold sentences_of, split_sentences, re_split_sentences.
  pose proof (filter_join_len [SPACE]
                (re_split_aux false false (strip (or_empty text)))).
  pose proof (re_split_join_len (strip (or_empty text)) false false). lia.
Qed.

(** X5: a text that, stripped, is not longer than [max_chars] is never cut:
    it gives one chunk, all its sentences joined with single spaces, or no
    chunk when it is blank. *)
Theorem short_text_single_chunk (text : option pystr) (max_chars : Z) :
  len (strip (or_empty text)) <= max_chars ->
  _split_by_sentences text max_chars
  = match sentences_of text with
    | [] => []
    | ss => [join [SPACE] ss]
    end
  /\ (length (_split_by_sentences text max_chars) <= 1)%nat.
Proof.
  intros Hfit. pose proof (sentences_join_len text) as Hlen.
  rewrite split_groups. destruct (sentences_of text) as [| s ss];
    [simpl; split; [reflexivity | lia] |].
  unfold groups_of.
  rewrite (pack_from_fits max_chars ss [s]); [| discriminate | simpl app; lia].
  simpl. split; [reflexivity | lia].
Qed.

Lemma short_text_single_chunk_witness :
  len (strip (or_empty (Some (u " Guten Tag.  Wie geht es?  ")))) <= 400
  /\ _split_by_sentences (Some (u " Guten Tag.  Wie geht es?  ")) 400
     = [u "Guten Tag. Wie geht es?"].
Proof.
  split; [vm_compute; discriminate |].
  rewrite (proj1 (short_text_single_chunk
                    (Some (u " Guten Tag.  Wie geht es?  ")) 400
                    ltac:(vm_compute; discriminate))).
  vm_compute. reflexivity.
Defined.

Lemma pack_from_head (max_chars : Z) (ss : list pystr) :
  forall group,
    exists more rest, pack_from max_chars group ss = (group ++ more) :: rest.
Proof.
  induction ss as [| s ss IH]; intros group; simpl.
  - exists [], []. now rewrite app_nil_r.
  - destruct (_ <=? _).
    + destruct (IH (group ++ [s])) as (more & rest & ->).
      exists (s :: more), rest. now rewrite <- app_assoc.
    + exists [], (pack_from max_chars [s] ss). now rewrite app_nil_r.
Qed.

Lemma pack_from_greedy (max_chars : Z) (ss : list pystr) :
  forall group, greedy max_chars (pack_from max_chars group ss).
Proof.
  induction ss as [| s ss IH]; intros group; simpl; [exact I |].
  destruct (Z.leb_spec (len (join [SPACE] group) + len s) max_chars) as [_ | Hlt];
    [apply IH |].
  specialize (IH [s]).
  destruct (pack_from_head max_chars ss [s]) as (more & rest & E).
  rewrite E in *. split; [| exact IH].
  intros s' Hs'. simpl in Hs'. injection Hs' as <-. lia.
Qed.

(** X6: the packing is greedy.  The chunks are the joins of consecutive
    non-empty groups of the sentences, and a chunk is closed only when it
    has to be: a chunk and the first sentence of the next chunk are
    together longer than [max_chars]. *)
Theorem chunks_are_greedy (text : option pystr) (max_chars : Z) :
  exists groups : list (list pystr),
    _split_by_sentences text max_chars = map (join [SPACE]) groups
    /\ concat groups = sentences_of text
    /\ Forall (fun g => g <> []) groups
    /\ greedy max_chars groups.
Proof.
  exists (groups_of max_chars (sentences_of text)).
  split; [apply split_groups |]. split; [apply groups_of_concat |].
  split; [apply groups_of_nonempty |].
  destruct (sentences_of text) as [| s ss]; [exact I |].
  apply pack_from_greedy.
Qed.

(** *** Translating the chunks *)

(** X7: a text that is [None], empty or white space only is translated to
    the empty string, and nothing happens: no tokenizer or model call, no
    log line. *)
Theorem translate_blank (eng : Engine) (tr : Translator)
    (text : option pystr) (max_chars : Z) (has_log : bool) (w : World) :
  strip (or_empty text) = [] ->
  translate eng tr text max_chars has_log w = (w, Ok []).
Proof.
  intros H. apply (split_nil_iff text max_chars) in H.
  unfold translate. now rewrite H.
Qed.

Lemma translate_blank_witness :
  strip (or_empty (Some (u "     "))) = []
  /\ translate engine_echo translator_cpu (Some (u "     ")) 400 true world0
     = (world0, Ok []).
Proof.
  split; [reflexivity |].
  apply (translate_blank engine_echo translator_cpu (Some (u "     ")) 400
           true world0 eq_refl).
Defined.

Lemma translate_one_ok (eng : Engine) (forced_id : Z) (c : pystr) :
  is_ok (translate_one eng forced_id c) = true ->
  exists inputs generated translated,
    tokenize eng c = Ok inputs
    /\ generate eng inputs forced_id = Ok generated
    /\ batch_decode_first eng generated = Ok translated
    /\ translate_one eng forced_id c = Ok (strip (or_empty translated))
    /\ inputs_of eng c = inputs.
Proof.
  unfold translate_one, inputs_of.
  destruct (tokenize eng c) as [inputs | e]; [| discriminate].
  destruct (generate eng inputs forced_id) as [generated | e] eqn:Hg;
    [| discriminate].
  destruct (batch_decode_first eng generated) as [translated | e] eqn:Hd;
    [| discriminate].
  intros _. now exists inputs, generated, translated.
Qed.

(** The loop over chunks that all go through. *)
Lemma translate_chunks_ok (eng : Engine) (tr : Translator) (has_log : bool)
    (forced_id : Z) (total : nat) (chunks : list pystr) :
  forall (idx : nat) (results : list pystr) (w : World),
    Forall (fun c => is_ok (translate_one eng forced_id c) = true) chunks ->
    let r := translate_chunks eng tr has_log forced_id total idx chunks
               results w in
    snd r
    = Ok (results
          ++ map (fun c => translated_text (translate_one eng forced_id c))
               chunks)
    /\ generate_calls (fst r)
       = generate_calls w ++ map (inputs_of eng) chunks
    /\ log_lines (fst r)
       = log_lines w
         ++ (if has_log
             then map (chunk_line total) (seq idx (length chunks)) else [])
    /\ empty_cache_calls (fst r)
       = (empty_cache_calls w
          + (if is_cuda (tr_device tr) then length chunks else 0))%nat
    /\ environ (fst r) = environ w.
Proof.
  induction chunks as [| c chunks IH]; intros idx results w Hok.
  - simpl. rewrite !app_nil_r.
    split; [reflexivity |]. split; [reflexivity |].
    split; [destruct has_log; now rewrite ?app_nil_r |].
    split; [destruct (is_cuda (tr_device tr)); lia | reflexivity].
  - inversion Hok as [| ? ? Hc Hrest]; subst.
    destruct (translate_one_ok eng forced_id c Hc)
      as (inputs & generated & translated & Ht & Hg & Hd & Hone & Hin).
    cbn [translate_chunks]. rewrite Ht, Hg, Hd.
    match goal with
    | |- context [translate_chunks eng tr has_log forced_id total (S idx)
                    chunks ?res ?w3] =>
        destruct (IH (S idx) res w3 Hrest) as (E1 & E2 & E3 & E4 & E5)
    end.
    cbv zeta. rewrite E1, E2, E3, E4, E5. clear IH E1 E2 E3 E4 E5.
    cbn [map length seq]. rewrite Hone, Hin. cbn [translated_text].
    split; [now rewrite <- app_assoc |].
    destruct (is_cuda (tr_device tr)); cbn;
      rewrite emit_log; destruct has_log; cbn;
      rewrite <- ?app_assoc; repeat split; try reflexivity; lia.
Qed.

(** X8: when every chunk goes through, [translate] returns the translations
    of the chunks, each stripped, joined with newlines in the order of the
    chunks; [model.generate] is called once for each chunk, in order; with
    a [log] callback the lines [Translating chunk i/n] are logged for
    [i = 1 .. n]; the cache is emptied once for each chunk on CUDA and
    never on the CPU; the process environment is not touched. *)
Theorem translate_all_chunks (eng : Engine) (tr : Translator)
    (text : option pystr) (max_chars : Z) (has_log : bool) (w : World)
    (forced_id : Z) :
  convert_tokens_to_ids eng (target_lang tr) = Ok forced_id ->
  let chunks := _split_by_sentences text max_chars in
  Forall (fun c => is_ok (translate_one eng forced_id c) = true) chunks ->
  let r := translate eng tr text max_chars has_log w in
  snd r
  = Ok (join [NEWLINE]
          (map (fun c => translated_text (translate_one eng forced_id c))
             chunks))
  /\ generate_calls (fst r) = generate_calls w ++ map (inputs_of eng) chunks
  /\ log_lines (fst r)
     = log_lines w
       ++ (if has_log
           then map (chunk_line (length chunks)) (seq 1 (length chunks))
           else [])
  /\ empty_cache_calls (fst r)
     = (empty_cache_calls w
        + (if is_cuda (tr_device tr) then length chunks else 0))%nat
  /\ environ (fst r) = environ w.
Proof.
  intros Hid chunks Hok r. subst r chunks. unfold translate.
  destruct (_split_by_sentences text max_chars) as [| c chunks] eqn:E.
  - simpl. rewrite !app_nil_r.
    split; [reflexivity |]. split; [reflexivity |].
    split; [destruct has_log; now rewrite ?app_nil_r |].
    split; [destruct (is_cuda (tr_device tr)); lia | reflexivity].
  - rewrite Hid.
    destruct (translate_chunks_ok eng tr has_log forced_id
                (length (c :: chunks)) (c :: chunks) 1 [] w Hok)
      as (E1 & E2 & E3 & E4 & E5).
    destruct (translate_chunks eng tr has_log forced_id
                (length (c :: chunks)) 1 (c :: chunks) [] w) as [w' res].
    simpl in E1, E2, E3, E4, E5. subst res. simpl fst. simpl snd.
    now repeat split.
Qed.

Lemma translate_all_chunks_witness :
  convert_tokens_to_ids engine_echo (target_lang translator_cpu) = Ok 256047
  /\ Forall (fun c => is_ok (translate_one engine_echo 256047 c) = true)
       (_split_by_sentences (Some (u "Eins. Zwei. Drei. Vier.")) 11)
  /\ snd (translate engine_echo translator_cpu
            (Some (u "Eins. Zwei. Drei. Vier.")) 11 true world0)
     = Ok (u "Eins. Zwei." ++ [NEWLINE] ++ u "Drei. Vier.")
  /\ log_lines (fst (translate engine_echo translator_cpu
                       (Some (u "Eins. Zwei. Drei. Vier.")) 11 true world0))
     = ["[INFO] Translating chunk 1/2"; "[INFO] Translating chunk 2/2"].
Proof.
  assert (Hok : Forall
                  (fun c => is_ok (translate_one engine_echo 256047 c) = true)
                  (_split_by_sentences (Some (u "Eins. Zwei. Drei. Vier.")) 11))
    by (vm_compute; repeat constructor).
  split; [reflexivity |]. split; [exact Hok |].
  pose proof (translate_all_chunks engine_echo translator_cpu
                (Some (u "Eins. Zwei. Drei. Vier.")) 11 true world0 256047
                eq_refl Hok) as H.
  split; [exact (proj1 H) | exact (proj1 (proj2 (proj2 H)))].
Defined.

(** The loop that meets a chunk that fails. *)
Lemma translate_chunks_fail (eng : Engine) (tr : Translator) (has_log : bool)
    (forced_id : Z) (total : nat) (done : list pystr) :
  forall (c : pystr) (rest : list pystr) (e : string) (idx : nat)
         (results : list pystr) (w : World),
    Forall (fun c' => is_ok (translate_one eng forced_id c') = true) done ->
    translate_one eng forced_id c = Raise e ->
    let r := translate_chunks eng tr has_log forced_id total idx
               (done ++ c :: rest) results w in
    snd r = Raise e
    /\ generate_calls (fst r)
       = generate_calls w ++ map (inputs_of eng) done ++ calls_of_failed eng c.
Proof.
  induction done as [| d done IH]; intros c rest e idx results w Hok Hc.
  - cbn [app translate_chunks map]. unfold translate_one in Hc.
    unfold calls_of_failed.
    destruct (tokenize eng c) as [inputs | e1].
    + destruct (generate eng inputs forced_id) as [generated | e2].
      * destruct (batch_decode_first eng generated) as [translated | e3];
          [discriminate |].
        injection Hc as <-. cbn. split; [reflexivity |].
        now destruct has_log.
      * injection Hc as <-. cbn. split; [reflexivity |]. now destruct has_log.
    + injection Hc as <-. cbn. split; [reflexivity |].
      destruct has_log; cbn; now rewrite app_nil_r.
  - inversion Hok as [| ? ? Hd Hrest]; subst.
    destruct (translate_one_ok eng forced_id d Hd)
      as (inputs & generated & translated & Ht & Hg & Hdec & _ & Hin).
    cbn [app translate_chunks]. rewrite Ht, Hg, Hdec.
    match goal with
    | |- context [translate_chunks eng tr has_log forced_id total (S idx)
                    (done ++ c :: rest) ?res ?w3] =>
        destruct (IH c rest e (S idx) res w3 Hrest Hc) as (E1 & E2)
    end.
    cbv zeta. rewrite E1, E2. split; [reflexivity |].
    cbn [map]. rewrite Hin.
    destruct (is_cuda (tr_device tr)); cbn; destruct has_log; cbn;
      now rewrite <- app_assoc.
Qed.

(** X9: a chunk that fails ends the translation with its exception, with
    no partial text returned: the chunks before it were sent to the model,
    the failing one at most once, and none of the chunks after it. *)
Theorem translate_stops_at_failure (eng : Engine) (tr : Translator)
    (text : option pystr) (max_chars : Z) (has_log : bool) (w : World)
    (forced_id : Z) (done : list pystr) (c : pystr) (rest : list pystr)
    (e : string) :
  convert_tokens_to_ids eng (target_lang tr) = Ok forced_id ->
  _split_by_sentences text max_chars = done ++ c :: rest ->
  Forall (fun c' => is_ok (translate_one eng forced_id c') = true) done ->
  translate_one eng forced_id c = Raise e ->
  let r := translate eng tr text max_chars has_log w in
  snd r = Raise e
  /\ generate_calls (fst r)
     = generate_calls w ++ map (inputs_of eng) done ++ calls_of_failed eng c
  /\ (length (generate_calls (fst r))
      <= length (generate_calls w) + length done + 1)%nat.
Proof.
  intros Hid Hsplit Hok Hc r. subst r. unfold translate. rewrite Hsplit.
  destruct (done ++ c :: rest) as [| c0 l] eqn:E; [now destruct done |].
  rewrite Hid, <- E.
  destruct (translate_chunks_fail eng tr has_log forced_id
              (length (done ++ c :: rest)) done c rest e 1 [] w Hok Hc)
    as (E1 & E2).
  destruct (translate_chunks eng tr has_log forced_id
              (length (done ++ c :: rest)) 1 (done ++ c :: rest) [] w)
    as [w' res].
  simpl in E1, E2. subst res. simpl fst. simpl snd.
  split; [reflexivity |]. split; [exact E2 |].
  rewrite E2, !length_app, length_map. unfold calls_of_failed.
  destruct (tokenize eng c); simpl; lia.
Qed.

Lemma translate_stops_at_failure_witness :
  convert_tokens_to_ids engine_fails_on_three (target_lang translator_cpu)
  = Ok 256047
  /\ _split_by_sentences (Some (u "Eins. Zwei. Ja. Vier.")) 5
     = [u "Eins."; u "Zwei."] ++ u "Ja." :: [u "Vier."]
  /\ snd (translate engine_fails_on_three translator_cpu
            (Some (u "Eins. Zwei. Ja. Vier.")) 5 false world0)
     = Raise "CUDA out of memory"
  /\ length (generate_calls
               (fst (translate engine_fails_on_three translator_cpu
                       (Some (u "Eins. Zwei. Ja. Vier.")) 5 false world0)))
     = 3%nat.
Proof.
  assert (Hsplit : _split_by_sentences (Some (u "Eins. Zwei. Ja. Vier.")) 5
                   = [u "Eins."; u "Zwei."] ++ u "Ja." :: [u "Vier."])
    by (vm_compute; reflexivity).
  split; [reflexivity |]. split; [exact Hsplit |].
  pose proof (translate_stops_at_failure engine_fails_on_three translator_cpu
                (Some (u "Eins. Zwei. Ja. Vier.")) 5 false world0 256047
                [u "Eins."; u "Zwei."] (u "Ja.") [u "Vier."]
                "CUDA out of memory" eq_refl Hsplit
                ltac:(repeat constructor) eq_refl) as H.
  split; [exact (proj1 H) |].
  rewrite (proj1 (proj2 H)). reflexivity.
Defined.

(** *** The constructor *)

Lemma environ_emit (has_log : bool) (line : string) (w : World) :
  environ (emit has_log line w) = environ w.
Proof. now destruct has_log. Qed.

(** The first half of the constructor, once the device is known. *)
Lemma init_decide_ok (t : Torch) (model_name : option string)
    (has_log : bool) (w : World) (dev0 : device) :
  _choose_device t = Ok dev0 ->
  snd (init_decide t model_name has_log w)
  = Ok (final_device t model_name dev0, _pick_model_name t model_name)
  /\ log_lines (fst (init_decide t model_name has_log w))
     = (if memory_override t (_pick_model_name t model_name) dev0 && has_log
        then log_lines w ++ [MEMORY_FALLBACK_WARNING] else log_lines w)
       ++ (if has_log
           then ["[INFO] NLLB model selected: "
                 +:+ _pick_model_name t model_name +:+ " (device="
                 +:+ device_type (final_device t model_name dev0) +:+ ")"]
           else [])
  /\ environ (fst (init_decide t model_name has_log w))
     = if is_cuda (final_device t model_name dev0)
       then environ (_set_allocator_hints w) else environ w.
Proof.
  intros Hdev. unfold init_decide, final_device. rewrite Hdev.
  destruct (memory_override t (_pick_model_name t model_name) dev0).
  - cbn [fst snd is_cuda device_type String.eqb Ascii.eqb Bool.eqb andb].
    split; [reflexivity |]. split.
    + rewrite !emit_log. destruct has_log; cbn; now rewrite ?app_nil_r.
    + now rewrite !environ_emit.
  - destruct (is_cuda dev0); cbn [fst snd andb].
    + split; [reflexivity |]. split.
      * rewrite emit_log. cbn [try_empty_cache log_lines].
        rewrite allocator_hints_log.
        destruct has_log; cbn; now rewrite ?app_nil_r.
      * now rewrite environ_emit.
    + split; [reflexivity |]. split.
      * rewrite emit_log. destruct has_log; cbn; now rewrite ?app_nil_r.
      * now rewrite environ_emit.
Qed.

Lemma init_decide_raise (t : Torch) (model_name : option string)
    (has_log : bool) (w : World) (e : string) :
  _choose_device t = Raise e ->
  init_decide t model_name has_log w = (w, Raise e).
Proof. intros H. unfold init_decide. now rewrite H. Qed.

Lemma pick_not_requested (t : Torch) (model_name : option string) :
  requested_truthy model_name = false ->
  _pick_model_name t model_name = _pick_model_name t None.
Proof. intros H. unfold _pick_model_name. now rewrite H. Qed.

Lemma auto_not_overridden (t : Torch) (dev0 : device) :
  memory_override t (_pick_model_name t None) dev0 = false.
Proof.
  unfold memory_override, _pick_model_name, lt_threshold, ge_threshold. simpl.
  destruct (Qle_bool VRAM_THRESHOLD (_cuda_total_gib t)).
  - now rewrite andb_false_r.
  - reflexivity.
Qed.

(** X10: when no model is requested ([None] or the empty string), the
    model picked by memory is never overridden: the constructor keeps the
    device of [_choose_device], whatever the memory, and logs no warning. *)
Theorem auto_selection_keeps_device (t : Torch) (hub : Hub)
    (src tgt : string) (model_name : option string) (has_log : bool)
    (w : World) (dev0 : device) :
  requested_truthy model_name = false ->
  _choose_device t = Ok dev0 ->
  let r := __init__ t hub src tgt model_name has_log w in
  snd (init_decide t model_name has_log w)
  = Ok (dev0, _pick_model_name t None)
  /\ (forall tr, snd r = Ok tr ->
        tr_device tr = dev0 /\ tr_model_name tr = _pick_model_name t None)
  /\ count_warn (log_lines (fst r)) = count_warn (log_lines w).
Proof.
  intros Hreq Hdev r.
  destruct (init_after_decide t hub src tgt model_name has_log w) as [Hw Htr].
  fold r in Hw, Htr.
  destruct (init_decide_ok t model_name has_log w dev0 Hdev) as (Hd & Hl & _).
  unfold final_device in Hd, Hl.
  rewrite (pick_not_requested t model_name Hreq) in Hd, Hl.
  rewrite auto_not_overridden in Hd, Hl.
  split; [exact Hd |]. split.
  - intros tr E. apply Htr in E. rewrite Hd in E. injection E as E1 E2.
    now split.
  - rewrite Hw, Hl. simpl andb. cbv iota.
    destruct has_log; [| now rewrite app_nil_r].
    rewrite count_warn_snoc. simpl. lia.
Qed.

Lemma auto_selection_keeps_device_witness :
  requested_truthy None = false
  /\ _choose_device torch_8gib = Ok Cuda
  /\ snd (__init__ torch_8gib hub_ok "deu_Latn" "eng_Latn" None true world0)
     = Ok {| source_lang := "deu_Latn"; target_lang := "eng_Latn";
             tr_device := Cuda; tr_model_name := DEFAULT_MODEL_SMALL |}
  /\ count_warn
       (log_lines (fst (__init__ torch_8gib hub_ok "deu_Latn" "eng_Latn"
                          None true world0))) = 0%nat.
Proof.
  split; [reflexivity |]. split; [reflexivity |]. split; [reflexivity |].
  exact (proj2 (proj2 (auto_selection_keeps_device torch_8gib hub_ok
                         "deu_Latn" "eng_Latn" None true world0 Cuda
                         eq_refl eq_refl))).
Defined.

(** X11: a translator that the constructor returns on the CUDA device was
    built on a machine where torch reports CUDA, and if its model is the
    large one the reported memory is at least 16 GiB: the large model is
    never put on a smaller GPU. *)
Theorem large_model_needs_large_gpu (t : Torch) (hub : Hub)
    (src tgt : string) (model_name : option string) (has_log : bool)
    (w : World) (tr : Translator) :
  snd (__init__ t hub src tgt model_name has_log w) = Ok tr ->
  tr_device tr = Cuda ->
  cuda_is_available t = Ok true
  /\ (tr_model_name tr = DEFAULT_MODEL_LARGE ->
      (16 <= _cuda_total_gib t)%Q).
Proof.
  intros Hinit Hcuda.
  destruct (init_after_decide t hub src tgt model_name has_log w) as [_ Htr].
  specialize (Htr tr Hinit).
  destruct (_choose_device t) as [dev0 | e] eqn:Hdev.
  - destruct (init_decide_ok t model_name has_log w dev0 Hdev) as (Hd & _ & _).
    rewrite Hd in Htr. injection Htr as E1 E2.
    unfold final_device in E1. rewrite Hcuda in E1.
    destruct (memory_override t (_pick_model_name t model_name) dev0) eqn:Ho;
      [discriminate |].
    subst dev0. split.
    + unfold _choose_device in Hdev.
      destruct (cuda_is_available t) as [[|] |]; congruence.
    + intros Hlarge. rewrite <- E2 in Hlarge.
      unfold memory_override in Ho. rewrite Hlarge in Ho. simpl in Ho.
      unfold lt_threshold in Ho. apply negb_false_iff in Ho.
      now apply Qle_bool_iff in Ho.
  - rewrite (init_decide_raise t model_name has_log w e Hdev) in Htr.
    discriminate.
Qed.

Lemma large_model_needs_large_gpu_witness :
  snd (__init__ torch_24gib hub_ok "deu_Latn" "eng_Latn" None false world0)
  = Ok {| source_lang := "deu_Latn"; target_lang := "eng_Latn";
          tr_device := Cuda; tr_model_name := DEFAULT_MODEL_LARGE |}
  /\ cuda_is_available torch_24gib = Ok true
  /\ (16 <= _cuda_total_gib torch_24gib)%Q.
Proof.
  split; [reflexivity |].
  destruct (large_model_needs_large_gpu torch_24gib hub_ok "deu_Latn"
              "eng_Latn" None false world0 _ eq_refl eq_refl) as [H1 H2].
  split; [exact H1 | exact (H2 eq_refl)].
Defined.

(** X12: the only variable of the process environment that the constructor
    may set is [PYTORCH_CUDA_ALLOC_CONF]; a value already there is never
    replaced; a translator on the CPU leaves the environment as it was, and
    one on CUDA finds the variable set, to the default if it was unset. *)
Theorem allocator_hint_only_on_cuda (t : Torch) (hub : Hub)
    (src tgt : string) (model_name : option string) (has_log : bool)
    (w : World) :
  let r := __init__ t hub src tgt model_name has_log w in
  (forall key, key <> ALLOC_CONF ->
     environ (fst r) !! key = environ w !! key)
  /\ (is_Some (environ w !! ALLOC_CONF) -> environ (fst r) = environ w)
  /\ (forall tr, snd r = Ok tr -> tr_device tr = Cpu ->
        environ (fst r) = environ w)
  /\ (forall tr, snd r = Ok tr -> tr_device tr = Cuda ->
        environ (fst r) !! ALLOC_CONF
        = Some (default "expandable_segments:True"
                  (environ w !! ALLOC_CONF))).
Proof.
  intros r.
  destruct (init_after_decide t hub src tgt model_name has_log w) as [Hw Htr].
  fold r in Hw, Htr. rewrite Hw.
  destruct (_choose_device t) as [dev0 | e] eqn:Hdev.
  - destruct (init_decide_ok t model_name has_log w dev0 Hdev) as (Hd & _ & He).
    rewrite He. unfold _set_allocator_hints. fold ALLOC_CONF.
    split; [| split; [| split]].
    + intros key Hkey. destruct (is_cuda _); [| reflexivity].
      destruct (environ w !! ALLOC_CONF); [reflexivity |]. cbn.
      now rewrite lookup_insert_ne.
    + intros [v Hv]. rewrite Hv. now destruct (is_cuda _).
    + intros tr E Hcpu. apply Htr in E. rewrite Hd in E.
      injection E as E1 _. rewrite E1, Hcpu. reflexivity.
    + intros tr E Hcuda. apply Htr in E. rewrite Hd in E.
      injection E as E1 _. rewrite E1, Hcuda. cbn.
      destruct (environ w !! ALLOC_CONF) eqn:Hv; cbn.
      * exact Hv.
      * apply lookup_insert_eq.
  - rewrite (init_decide_raise t model_name has_log w e Hdev) in *.
    cbn [fst snd] in *.
    split; [reflexivity |]. split; [reflexivity |].
    split; intros tr E; apply Htr in E; discriminate.
Qed.

End NllbExtras.

(** ** The transcriber *)
Module TranscriberExtras.
Import PyText Transcriber TranscriberFacts.

(** *** The CUDA path adjustment *)

Lemma append_cons_s (x : ascii) (a b : string) :
  String x a +:+ b = String x (a +:+ b).
Proof. reflexivity. Qed.

Lemma append_assoc_s (a b c : string) : (a +:+ b) +:+ c = a +:+ (b +:+ c).
Proof.
  induction a as [| x a IH]; [reflexivity |].
  now rewrite !append_cons_s, IH.
Qed.

Lemma append_nil_s (a : string) : a +:+ "" = a.
Proof.
  induction a as [| x a IH]; [reflexivity |]. now rewrite append_cons_s, IH.
Qed.

Lemma concat_snoc_suffix (sep x : string) (l : list string) :
  exists pre, String.concat sep (l ++ [x]) = pre +:+ x.
Proof.
  induction l as [| a l [pre IH]]; [now exists "" |].
  simpl. destruct (l ++ [x]) eqn:E; [now destruct l |].
  rewrite IH. exists (a +:+ sep +:+ pre). now rewrite !append_assoc_s.
Qed.

Lemma new_path_suffix (dirs : list string) (m : gmap string string)
    (p : string) :
  m !! "PATH" = Some p -> exists pre, new_path dirs m = pre +:+ p.
Proof.
  intros H. unfold new_path. rewrite H. simpl default.
  destruct (String.eqb_spec p "") as [-> | _].
  - exists (String.concat PATHSEP (dirs ++ [])). now rewrite append_nil_s.
  - apply concat_snoc_suffix.
Qed.

Lemma put_if_absent_lookup (key value key' : string) (m : gmap string string) :
  put_if_absent key value m !! key'
  = match m !! key' with
    | Some v => Some v
    | None => if decide (key = key') then Some value else None
    end.
Proof.
  unfold put_if_absent. destruct (m !! key) as [v |] eqn:E.
  - destruct (m !! key') eqn:E'; [reflexivity |].
    destruct (decide (key = key')) as [-> | _]; congruence.
  - destruct (decide (key = key')) as [<- | Hne].
    + now rewrite lookup_insert_eq, E.
    + rewrite lookup_insert_ne by assumption. now destruct (m !! key').
Qed.

Lemma patched_lookup (dirs : list string) (m : gmap string string)
    (key : string) :
  patched_environ dirs m !! key
  = if decide (key = "PATH") then Some (new_path dirs m)
    else match m !! key with
         | Some v => Some v
         | None =>
             if decide (key = "CUDA_PATH") then Some (String.concat PATHSEP dirs)
             else if decide (key = "CUDA_PATH_V12_4")
                  then Some (String.concat PATHSEP dirs)
                  else None
         end.
Proof.
  unfold patched_environ. rewrite !put_if_absent_lookup.
  destruct (decide (key = "PATH")) as [-> | Hp].
  - now rewrite lookup_insert_eq.
  - rewrite lookup_insert_ne by congruence.
    destruct (m !! key); [reflexivity |].
    destruct (decide (key = "CUDA_PATH")) as [-> | H1]; [reflexivity |].
    destruct (decide ("CUDA_PATH" = key)); [congruence |].
    destruct (decide (key = "CUDA_PATH_V12_4")) as [-> | H2]; [reflexivity |].
    destruct (decide ("CUDA_PATH_V12_4" = key)); [congruence | reflexivity].
Qed.

Lemma set_cuda_paths_lookup (env : Env) (w : World) (key : string) :
  environ (fst (set_cuda_paths env w)) !! key
  = match wheel_dirs_found env with
    | [] => environ w !! key
    | dirs => patched_environ dirs (environ w) !! key
    end.
Proof. rewrite set_cuda_paths_environ. now destruct (wheel_dirs_found env). Qed.

(** X13: [set_cuda_paths] does not clobber what is there.  It changes no
    variable other than [PATH], [CUDA_PATH] and [CUDA_PATH_V12_4]; a
    [CUDA_PATH] or [CUDA_PATH_V12_4] that is set keeps its value; the old
    value of [PATH] stays at the end of the new one; it logs at most one
    line, calls no constructor and writes no file. *)
Theorem set_cuda_paths_keeps_values (env : Env) (w : World) :
  let w' := fst (set_cuda_paths env w) in
  (forall key, key <> "PATH" -> key <> "CUDA_PATH" ->
     key <> "CUDA_PATH_V12_4" -> environ w' !! key = environ w !! key)
  /\ (forall v, environ w !! "CUDA_PATH" = Some v ->
        environ w' !! "CUDA_PATH" = Some v)
  /\ (forall v, environ w !! "CUDA_PATH_V12_4" = Some v ->
        environ w' !! "CUDA_PATH_V12_4" = Some v)
  /\ (forall p, environ w !! "PATH" = Some p ->
        exists pre, environ w' !! "PATH" = Some (pre +:+ p))
  /\ (exists new, log w' = log w ++ new /\ (length new <= 1)%nat)
  /\ ctor_calls w' = ctor_calls w
  /\ files w' = files w.
Proof.
  intros w'. subst w'.
  split; [| split; [| split; [| split; [| split]]]].
  - intros key H1 H2 H3. rewrite set_cuda_paths_lookup.
    destruct (wheel_dirs_found env); [reflexivity |].
    rewrite patched_lookup. repeat case_decide; try congruence.
    now destruct (environ w !! key).
  - intros v Hv. rewrite set_cuda_paths_lookup.
    destruct (wheel_dirs_found env); [exact Hv |].
    rewrite patched_lookup, Hv. now case_decide.
  - intros v Hv. rewrite set_cuda_paths_lookup.
    destruct (wheel_dirs_found env); [exact Hv |].
    rewrite patched_lookup, Hv. now case_decide.
  - intros p Hp. rewrite set_cuda_paths_lookup.
    destruct (wheel_dirs_found env) as [| d dirs].
    + exists "". exact Hp.
    + rewrite patched_lookup. case_decide; [| congruence].
      destruct (new_path_suffix (d :: dirs) (environ w) p Hp) as [pre ->].
      now exists pre.
  - unfold set_cuda_paths. destruct (negb _).
    { exists []. simpl. split; [now rewrite app_nil_r | lia]. }
    unfold set_cuda_paths_try.
    destruct (sys_executable env) as [exe |].
    + destruct (existing_dirs env (wheel_dirs exe)) as [[| d l] | e].
      * exists []. simpl. split; [now rewrite app_nil_r | lia].
      * eexists [_]. cbn [fst safe_log log].
        rewrite !(proj1 (set_if_absent_same _ _ _)). split; [reflexivity |].
        simpl. lia.
      * eexists [_]. split; [reflexivity | simpl; lia].
    + eexists [_]. split; [reflexivity | simpl; lia].
  - destruct (set_cuda_paths_log env w) as (new & _ & _ & H1 & H2).
    now split.
Qed.

Lemma existing_implies_any (env : Env) (cands : list PurePath) :
  forall l,
    existing_dirs env cands = Ok l -> l <> [] -> any_exists env cands = Ok true.
Proof.
  induction cands as [| p cands IH]; intros l E Hne; simpl in *.
  - injection E as <-. contradiction.
  - destruct (path_exists env (path_str p)) as [[|] | e]; try discriminate.
    + reflexivity.
    + destruct (existing_dirs env cands) as [l' | e]; [| discriminate].
      injection E as <-. now apply (IH l').
Qed.

Lemma found_implies_present (env : Env) :
  wheel_dirs_found env <> [] -> _cuda_wheels_present env = true.
Proof.
  unfold wheel_dirs_found, _cuda_wheels_present.
  destruct (negb _); [contradiction |].
  destruct (sys_executable env) as [exe |]; [| contradiction].
  destruct (existing_dirs env (wheel_dirs exe)) as [l | e] eqn:E;
    [| contradiction].
  intros Hne. now rewrite (existing_implies_any env _ l E Hne).
Qed.

(** X14: where [_cuda_wheels_present] answers [False], [set_cuda_paths]
    changes no environment variable: the two functions agree on what a
    wheel directory is. *)
Theorem no_wheels_no_patch (env : Env) (w : World) :
  _cuda_wheels_present env = false ->
  environ (fst (set_cuda_paths env w)) = environ w.
Proof.
  intros H. rewrite set_cuda_paths_environ.
  destruct (wheel_dirs_found env) as [| d dirs] eqn:E; [reflexivity |].
  rewrite found_implies_present in H; [discriminate |].
  rewrite E. discriminate.
Qed.

Lemma no_wheels_no_patch_witness :
  _cuda_wheels_present (windows_env false true) = false
  /\ environ (fst (set_cuda_paths (windows_env false true)
                     (world_with_path "C:\Windows")))
     = environ (world_with_path "C:\Windows").
Proof.
  split; [reflexivity |].
  apply (no_wheels_no_patch (windows_env false true)
           (world_with_path "C:\Windows") eq_refl).
Defined.

(** *** The constructor calls of [_init_model] *)

Lemma init_model_prefix (ctor : Ctor) (env : Env) (model_size : string)
    (w : World) :
  exists attempted rest,
    compute_candidates (device_of env model_size) (preferred_of env model_size)
    = attempted ++ rest
    /\ attempted <> []
    /\ fst (_init_model (Some ctor) env model_size w)
       = after_attempts ctor (effective_of env model_size)
           (device_of env model_size) attempted
           (before_attempts env model_size w).
Proof.
  destruct (first_success_split ctor (effective_of env model_size)
              (device_of env model_size)
              (compute_candidates (device_of env model_size)
                 (preferred_of env model_size)))
    as [Hf | (tried & c & rest & model & E & Hf & Hok)].
  - destruct (init_model_failure ctor env model_size w Hf) as (c_last & _ & E).
    rewrite E. eexists _, []. rewrite app_nil_r.
    split; [reflexivity |]. split; [| reflexivity].
    destruct (candidates_cases env model_size) as [[_ ->] | [_ ->]];
      discriminate.
  - rewrite (init_model_success ctor env model_size w tried c rest model
               E Hf Hok).
    exists (tried ++ [c]), rest. rewrite <- app_assoc.
    split; [exact E |]. split; [now destruct tried | reflexivity].
Qed.

Lemma before_attempts_environ_cpu (env : Env) (model_size : string)
    (w : World) :
  _torch_cuda_available env = false ->
  environ (before_attempts env model_size w) = environ w.
Proof.
  intros H. unfold before_attempts.
  destruct (device_of_cases env model_size) as [(E & _) | (_ & -> & _)];
    [congruence | reflexivity].
Qed.

(** X15: [_init_model] calls the constructor at least once and for no more
    than the candidates, which it takes in order from the first, always
    with the same model and device; it writes no file.  On a machine
    without CUDA the device is ["cpu"], at most two calls are made and the
    process environment is left as it was. *)
Theorem init_model_calls (ctor : Ctor) (env : Env) (model_size : string)
    (w : World) :
  let w' := fst (_init_model (Some ctor) env model_size w) in
  exists attempted rest,
    compute_candidates (device_of env model_size) (preferred_of env model_size)
    = attempted ++ rest
    /\ attempted <> []
    /\ (length attempted <= 3)%nat
    /\ ctor_calls w'
       = ctor_calls w
         ++ map (fun c => (effective_of env model_size,
                           device_of env model_size, c)) attempted
    /\ files w' = files w
    /\ (_torch_cuda_available env = false ->
        device_of env model_size = "cpu"
        /\ (length attempted <= 2)%nat
        /\ environ w' = environ w).
Proof.
  intros w'. subst w'.
  destruct (init_model_prefix ctor env model_size w)
    as (attempted & rest & Hc & Hne & ->).
  destruct (before_attempts_log env model_size w) as (new & _ & _ & Hcalls & Hfiles).
  exists attempted, rest. unfold after_attempts. cbn [ctor_calls files environ].
  assert (Hlen : (length (attempted ++ rest)
                  = length attempted + length rest)%nat)
    by apply length_app.
  rewrite <- Hc in Hlen.
  split; [exact Hc |]. split; [exact Hne |]. split.
  { destruct (candidates_cases env model_size) as [[_ E] | [_ E]];
      rewrite E in Hlen; simpl in Hlen; lia. }
  split; [now rewrite Hcalls |]. split; [exact Hfiles |].
  intros Hcpu.
  destruct (candidates_cases env model_size) as [[Hd E] | [Hd E]].
  - destruct (device_of_cases env model_size) as [(H1 & _) | (_ & H2 & _)];
      congruence.
  - split; [exact Hd |]. split; [rewrite E in Hlen; simpl in Hlen; lia |].
    now apply before_attempts_environ_cpu.
Qed.

(** *** The batch *)

Lemma transcribe_loop_frame (env : Env) (model : Model)
    (audio_dir output_dir : string) (wav_files : list string) :
  forall (acc : list string) (w : World),
    environ (fst (transcribe_loop env model audio_dir output_dir wav_files
                    acc w)) = environ w
    /\ ctor_calls (fst (transcribe_loop env model audio_dir output_dir
                          wav_files acc w)) = ctor_calls w.
Proof.
  induction wav_files as [| name rest IH]; intros acc w; [now split |].
  cbn [transcribe_loop].
  destruct (transcribe_one env model audio_dir output_dir name)
    as [[[transcript out_name] out_path] | e].
  - destruct (IH (acc ++ [out_path])
                (safe_log (transcribed_line name out_name transcript)
                   (write_file out_path transcript w))) as [-> ->].
    now split.
  - destruct (IH acc (safe_log (failed_line name e) w)) as [-> ->].
    now split.
Qed.




Lemma init_model_files (whisper : option Ctor) (env : Env)
    (model_size : string) (w : World) :
  files (fst (_init_model whisper env model_size w)) = files w.
Proof.
  destruct whisper as [ctor |]; [| reflexivity].
  destruct (init_model_prefix ctor env model_size w)
    as (attempted & rest & _ & _ & ->).
  destruct (before_attempts_log env model_size w) as (new & _ & _ & _ & H).
  exact H.
Qed.

Lemma init_model_environ_cpu (whisper : option Ctor) (env : Env)
    (model_size : string) (w : World) :
  _torch_cuda_available env = false ->
  environ (fst (_init_model whisper env model_size w)) = environ w.
Proof.
  intros H. destruct whisper as [ctor |]; [| reflexivity].
  destruct (init_model_prefix ctor env model_size w)
    as (attempted & rest & _ & _ & ->).
  now apply before_attempts_environ_cpu.
Qed.

Lemma path_patched_files (env : Env) (w : World) :
  files (path_patched env w) = files w.
Proof.
  unfold path_patched. destruct (_ && _); [| reflexivity].
  now destruct (set_cuda_paths_log env w) as (new & _ & _ & _ & H).
Qed.

Lemma path_patched_environ_cpu (env : Env) (w : World) :
  _torch_cuda_available env = false ->
  environ (path_patched env w) = environ w.
Proof.
  intros H. unfold path_patched. rewrite H. now rewrite andb_false_r.
Qed.

(** [transcribe_audio_files] once the directory exists and the model is
    loaded. *)
Lemma batch_loaded (whisper : option Ctor) (env : Env)
    (audio_dir output_dir model_size : string) (w w2 : World)
    (model : Model) :
  mkdir env output_dir = Ok tt ->
  _init_model whisper env model_size (path_patched env w) = (w2, Ok model) ->
  transcribe_audio_files whisper env audio_dir output_dir model_size w
  = match sorted (glob_wav env audio_dir) with
    | [] => (safe_log (no_wav_line audio_dir) w2, Ok [])
    | wav_files =>
        (safe_log
           (total_line
              (length (snd (transcribe_loop env model audio_dir output_dir
                              wav_files [] w2))))
           (fst (transcribe_loop env model audio_dir output_dir
                   wav_files [] w2)),
         Ok (snd (transcribe_loop env model audio_dir output_dir
                    wav_files [] w2)))
    end.
Proof.
  intros Hmkdir Hinit. unfold transcribe_audio_files. rewrite Hmkdir.
  fold (path_patched env w). rewrite Hinit.
  destruct (sorted (glob_wav env audio_dir)) as [| name rest];
    [reflexivity |].
  now destruct (transcribe_loop env model audio_dir output_dir (name :: rest)
                  [] w2).
Qed.

Lemma batch_load_failed (whisper : option Ctor) (env : Env)
    (audio_dir output_dir model_size : string) (w : World) (e : string) :
  mkdir env output_dir = Ok tt ->
  snd (_init_model whisper env model_size (path_patched env w)) = Raise e ->
  transcribe_audio_files whisper env audio_dir output_dir model_size w
  = (safe_log (load_error_line model_size e)
       (fst (_init_model whisper env model_size (path_patched env w))),
     Ok []).
Proof.
  intros Hmkdir Hinit. unfold transcribe_audio_files. rewrite Hmkdir.
  fold (path_patched env w).
  destruct (_init_model whisper env model_size (path_patched env w))
    as [w2 [model | e']]; [discriminate |].
  simpl in Hinit. now injection Hinit as ->.
Qed.


(** X17: when the model cannot be loaded, [transcribe_audio_files] returns
    the empty list, logs the one error line that names the requested model
    and the cause, and writes no file. *)
Theorem load_failure_gives_empty_result (whisper : option Ctor) (env : Env)
    (audio_dir output_dir model_size : string) (w : World) (e : string) :
  mkdir env output_dir = Ok tt ->
  snd (_init_model whisper env model_size (path_patched env w)) = Raise e ->
  let r := transcribe_audio_files whisper env audio_dir output_dir
             model_size w in
  snd r = Ok []
  /\ last (log (fst r)) = Some (load_error_line model_size e)
  /\ error_lines (log (fst r))
     = error_lines (log w) ++ [load_error_line model_size e]
  /\ files (fst r) = files w.
Proof.
  intros Hmkdir Hinit r. subst r.
  rewrite (batch_load_failed whisper env audio_dir output_dir model_size w e
             Hmkdir Hinit).
  cbn [fst snd safe_log log files].
  split; [reflexivity |]. split; [apply last_snoc |]. split.
  - rewrite error_lines_app, init_model_error_lines, path_patched_error_lines.
    reflexivity.
  - now rewrite init_model_files, path_patched_files.
Qed.

Lemma load_failure_gives_empty_result_witness :
  mkdir batch_env "out" = Ok tt
  /\ snd (_init_model None batch_env "medium"
            (path_patched batch_env world_empty)) = Raise NOT_INSTALLED
  /\ snd (transcribe_audio_files None batch_env "in" "out" "medium"
            world_empty) = Ok []
  /\ error_lines
       (log (fst (transcribe_audio_files None batch_env "in" "out" "medium"
                    world_empty)))
     = ["[ERROR] Could not load Whisper model 'medium': " +:+ NOT_INSTALLED].
Proof.
  split; [reflexivity |]. split; [reflexivity |].
  pose proof (load_failure_gives_empty_result None batch_env "in" "out"
                "medium" world_empty NOT_INSTALLED eq_refl eq_refl) as H.
  split; [exact (proj1 H) | exact (proj1 (proj2 (proj2 H)))].
Defined.


(** X18: with no [.wav] file in the input directory,
    [transcribe_audio_files] returns the empty list and writes no file;
    when the model was loaded, what it logs last is the line that says
    that no file was found. *)
Theorem empty_directory_gives_empty_result (whisper : option Ctor)
    (env : Env) (audio_dir output_dir model_size : string) (w : World) :
  mkdir env output_dir = Ok tt ->
  glob_wav env audio_dir = [] ->
  let r := transcribe_audio_files whisper env audio_dir output_dir
             model_size w in
  snd r = Ok []
  /\ files (fst r) = files w
  /\ (forall w2 model,
        _init_model whisper env model_size (path_patched env w)
        = (w2, Ok model) ->
        log (fst r) = log w2 ++ [no_wav_line audio_dir]).
Proof.
  intros Hmkdir Hglob r. subst r.
  destruct (_init_model whisper env model_size (path_patched env w))
    as [w2 [model | e]] eqn:Hinit.
  - rewrite (batch_loaded whisper env audio_dir output_dir model_size w w2
               model Hmkdir Hinit), Hglob.
    cbn [sorted fold_right fst snd safe_log files log].
    split; [reflexivity |]. split.
    + pose proof (init_model_files whisper env model_size
                    (path_patched env w)) as H.
      rewrite Hinit in H. simpl in H. now rewrite H, path_patched_files.
    + intros w2' model' E. now injection E as <- _.
  - rewrite (batch_load_failed whisper env audio_dir output_dir model_size
               w e Hmkdir); [| now rewrite Hinit].
    cbn [fst snd safe_log files]. split; [reflexivity |]. split.
    + rewrite Hinit. cbn [fst].
      pose proof (init_model_files whisper env model_size
                    (path_patched env w)) as H.
      rewrite Hinit in H. simpl in H. now rewrite H, path_patched_files.
    + intros w2' model' E. discriminate.
Qed.

Lemma empty_directory_gives_empty_result_witness :
  mkdir (windows_env false false) "out" = Ok tt
  /\ glob_wav (windows_env false false) "in" = []
  /\ snd (transcribe_audio_files (Some ctor_ok) (windows_env false false)
            "in" "out" "medium" world_empty) = Ok []
  /\ files (fst (transcribe_audio_files (Some ctor_ok)
                   (windows_env false false) "in" "out" "medium"
                   world_empty)) = ∅.
Proof.
  split; [reflexivity |]. split; [reflexivity |].
  pose proof (empty_directory_gives_empty_result (Some ctor_ok)
                (windows_env false false) "in" "out" "medium" world_empty
                eq_refl eq_refl) as H.
  split; [exact (proj1 H) | exact (proj1 (proj2 H))].
Defined.





(** X21: on a machine where torch reports no CUDA, a whole run of
    [transcribe_audio_files] leaves the process environment as it was. *)
Theorem cpu_only_batch_keeps_environ (whisper : option Ctor) (env : Env)
    (audio_dir output_dir model_size : string) (w : World) :
  _torch_cuda_available env = false ->
  environ (fst (transcribe_audio_files whisper env audio_dir output_dir
                  model_size w)) = environ w.
Proof.
  intros Hcpu.
  assert (Hinit : environ (fst (_init_model whisper env model_size
                                  (path_patched env w))) = environ w).
  { now rewrite init_model_environ_cpu, path_patched_environ_cpu. }
  destruct (mkdir env output_dir) as [[] | e] eqn:Hmkdir.
  - destruct (_init_model whisper env model_size (path_patched env w))
      as [w2 [model | e]] eqn:E.
    + rewrite (batch_loaded whisper env audio_dir output_dir model_size w w2
                 model Hmkdir E).
      destruct (sorted (glob_wav env audio_dir)) as [| name rest];
        [exact Hinit |].
      cbn [fst safe_log environ].
      now rewrite (proj1 (transcribe_loop_frame env model audio_dir
                            output_dir (name :: rest) [] w2)).
    + rewrite (batch_load_failed whisper env audio_dir output_dir model_size
                 w e Hmkdir); [| now rewrite E].
      rewrite E. exact Hinit.
  - unfold transcribe_audio_files. now rewrite Hmkdir.
Qed.

Lemma cpu_only_batch_keeps_environ_witness :
  _torch_cuda_available batch_env = false
  /\ environ (fst (transcribe_audio_files (Some ctor_flaky) batch_env "in"
                     "out" "medium" world_empty)) = ∅.
Proof.
  split; [reflexivity |].
  apply (cpu_only_batch_keeps_environ (Some ctor_flaky) batch_env "in" "out"
           "medium" world_empty eq_refl).
Defined.

(** X22: [_init_model] never runs a model of the denylist on CUDA, never
    asks for CUDA when torch reports none, and never asks for [float16] on
    the CPU: every constructor call it makes is for the effective model,
    either on ["cuda"], torch reporting CUDA, with [float16], [float32] or
    [int8], or on ["cpu"] with [int8] or [float32]. *)
Theorem init_model_safe_calls (ctor : Ctor) (env : Env) (model_size : string)
    (w : World) :
  exists new_calls,
    ctor_calls (fst (_init_model (Some ctor) env model_size w))
    = ctor_calls w ++ new_calls
    /\ Forall
         (fun call =>
            let '(m, d, c) := call in
            m = effective_of env model_size
            /\ ~ (d = "cuda" /\ in_unsafe m = true)
            /\ ((d = "cuda" /\ _torch_cuda_available env = true
                 /\ In c ["float16"; "float32"; "int8"])
                \/ (d = "cpu" /\ _torch_cuda_available env = false
                    /\ In c ["int8"; "float32"])))
         new_calls.
Proof.
  destruct (init_model_prefix ctor env model_size w)
    as (attempted & rest & Hc & _ & ->).
  destruct (before_attempts_log env model_size w) as (new & _ & _ & Hcalls & _).
  eexists. unfold after_attempts. cbn [ctor_calls]. rewrite Hcalls.
  split; [reflexivity |].
  apply List.Forall_forall. intros [[m d] c] Hin.
  apply in_map_iff in Hin as (c' & E & Hc'). injection E as <- <- <-.
  assert (Hcand : In c' (compute_candidates (device_of env model_size)
                           (preferred_of env model_size)))
    by (rewrite Hc; apply in_or_app; now left).
  split; [reflexivity |]. split.
  - intros [Hd Hu]. unfold effective_of in Hu. rewrite Hd in Hu.
    cbn [String.eqb Ascii.eqb Bool.eqb andb] in Hu.
    destruct (in_unsafe (requested_of model_size)) eqn:Hr;
      [discriminate | congruence].
  - destruct (device_of_cases env model_size) as [(Ht & Hd & Hp) | (Ht & Hd & Hp)];
      rewrite Hd, Hp in Hcand; rewrite Hd; [left | right];
      (split; [reflexivity | split; [exact Ht | exact Hcand]]).
Qed.

End TranscriberExtras.

(** ** The orchestrator *)
Module MainWindowExtras.
Import PyText MainWindow MainWindowFacts.

(** *** The main loop *)

Lemma mainloop_empty (fuel : nat) (sel : list (string * Stage)) (a : App) :
  after_queue a = [] -> mainloop fuel sel a = a.
Proof. intros H. destruct fuel; simpl; [reflexivity | now rewrite H]. Qed.

Lemma mainloop_add (n m : nat) (sel : list (string * Stage)) :
  forall a, mainloop (n + m) sel a = mainloop m sel (mainloop n sel a).
Proof.
  induction n as [| n IH]; intros a; [reflexivity |]. simpl.
  destruct (after_queue a) as [| call rest] eqn:E.
  - now rewrite mainloop_empty.
  - apply IH.
Qed.

(** The widget calls at the head of the queue run without any other
    change than to the widgets and the progress value. *)
Lemma drain (sel : list (string * Stage)) (q : list ui_call) :
  forall (a : App) (rest : list ui_call),
    forallb is_widget_call q = true ->
    after_queue a = q ++ rest ->
    after_queue (mainloop (length q) sel a) = rest
    /\ log_sink (mainloop (length q) sel a) = log_sink a
    /\ invoked (mainloop (length q) sel a) = invoked a
    /\ progress_maximum (mainloop (length q) sel a) = progress_maximum a
    /\ progress_value (mainloop (length q) sel a)
       = progress_after q (progress_value a).
Proof.
  induction q as [| c q IH]; intros a rest Hq Ha.
  - simpl. now repeat split.
  - simpl in Hq. apply andb_prop in Hq as [Hc Hq].
    cbn [length mainloop]. rewrite Ha. cbn [app].
    destruct (IH (dispatch sel c (set_after_queue (q ++ rest) a)) rest Hq)
      as (H1 & H2 & H3 & H4 & H5).
    { destruct c; try discriminate; try reflexivity; now destruct wd. }
    rewrite H1, H2, H3, H4, H5.
    destruct c; try discriminate; try (now repeat split);
      destruct wd; now repeat split.
Qed.

Lemma effect_refl (a : App) : effect a a [] [] [].
Proof. unfold effect. now rewrite !app_nil_r. Qed.

Lemma effect_trans (a b c : App) (c1 c2 : list ui_call)
    (l1 l2 n1 n2 : list string) :
  effect a b c1 l1 n1 -> effect b c c2 l2 n2 ->
  effect a c (c1 ++ c2) (l1 ++ l2) (n1 ++ n2).
Proof.
  intros (A1 & A2 & A3 & A4 & A5) (B1 & B2 & B3 & B4 & B5). unfold effect.
  rewrite B1, B2, B3, B4, B5, A1, A2, A3, A4, A5.
  now rewrite !app_assoc.
Qed.

Lemma effect_ui (call : ui_call) (a : App) : effect a (_ui call a) [call] [] [].
Proof. unfold effect. simpl. now rewrite !app_nil_r. Qed.

Lemma effect_log_and_output (message : string) (a : App) :
  effect a (log_and_output message a) (message_calls message) [message] [].
Proof.
  unfold effect, log_and_output, message_calls.
  destruct (is_summary message); simpl; rewrite ?app_nil_r, <- ?app_assoc;
    now repeat split.
Qed.

Lemma effect_record_invoked (name : string) (a : App) :
  effect a (record_invoked name a) [] [] [name].
Proof. unfold effect. simpl. now rewrite !app_nil_r. Qed.

Lemma effect_logging (lines : list string) :
  forall a,
    effect a (fold_left (fun a' line => log_and_output line a') lines a)
      (flat_map message_calls lines) lines [].
Proof.
  induction lines as [| line lines IH]; intros a; [apply effect_refl |].
  simpl.
  apply (effect_trans _ _ _ _ _ [line] lines [] []
           (effect_log_and_output line a) (IH _)).
Qed.

Lemma message_calls_widget (message : string) :
  forallb is_widget_call (message_calls message) = true.
Proof. unfold message_calls. now destruct (is_summary message). Qed.

Lemma flat_map_widget (lines : list string) :
  forallb is_widget_call (flat_map message_calls lines) = true.
Proof.
  induction lines as [| line lines IH]; [reflexivity |].
  cbn [flat_map]. now rewrite forallb_app, message_calls_widget, IH.
Qed.

(** *** One stage, then the chain *)

Lemma stage_effect (d : stage_descr) (next : nat) (a : App) :
  exists W,
    forallb is_widget_call W = true
    /\ effect a (stage_of d next a) (W ++ [Continue next])
         (sd_lines d
          ++ match sd_outcome d with
             | Ok _ => []
             | Raise e => ["[ERROR] " +:+ sd_context d +:+ ": " +:+ e]
             end) [].
Proof.
  unfold stage_of, pipeline_stage, logging_work.
  pose proof (effect_logging (sd_lines d) a) as H1.
  set (a1 := fold_left (fun a' line => log_and_output line a') (sd_lines d) a)
    in *.
  destruct (sd_outcome d) as [[] | e].
  - exists (flat_map message_calls (sd_lines d)
            ++ [ConfigureProgress (progress_value a1 + 1)]).
    split; [now rewrite forallb_app, flat_map_widget |].
    pose proof (effect_trans _ _ _ _ _ _ _ _ _ H1
                  (effect_ui (ConfigureProgress (progress_value a1 + 1)) a1))
      as H2.
    pose proof (effect_trans _ _ _ _ _ _ _ _ _ H2
                  (effect_ui (Continue next) (increment_progress a1))) as H3.
    rewrite !app_nil_r in H3. rewrite app_nil_r. exact H3.
  - exists (flat_map message_calls (sd_lines d)
            ++ message_calls ("[ERROR] " +:+ sd_context d +:+ ": " +:+ e)).
    split; [now rewrite forallb_app, flat_map_widget, message_calls_widget |].
    pose proof (effect_trans _ _ _ _ _ _ _ _ _ H1
                  (effect_log_and_output
                     ("[ERROR] " +:+ sd_context d +:+ ": " +:+ e) a1)) as H2.
    pose proof (effect_trans _ _ _ _ _ _ _ _ _ H2
                  (effect_ui (Continue next)
                     (handle_exception (sd_context d) e a1))) as H3.
    rewrite !app_nil_r in H3. exact H3.
Qed.

Lemma run_step_some (sel : list (string * Stage)) (i : nat) (a : App)
    (d : stage_descr) :
  nth_error sel i = Some (sd_name d, stage_of d) ->
  exists W,
    forallb is_widget_call W = true
    /\ effect a (run_step sel i a) (W ++ [Continue (S i)]) (stage_log d)
         [sd_name d].
Proof.
  intros H. unfold run_step. rewrite H.
  pose proof (effect_log_and_output ("Starting: " +:+ sd_name d) a) as H1.
  pose proof (effect_trans _ _ _ _ _ _ _ _ _ H1
                (effect_record_invoked (sd_name d) _)) as H2.
  destruct (stage_effect d (S i)
              (record_invoked (sd_name d)
                 (log_and_output ("Starting: " +:+ sd_name d) a)))
    as (W & HW & H3).
  pose proof (effect_trans _ _ _ _ _ _ _ _ _ H2 H3) as H4.
  exists (message_calls ("Starting: " +:+ sd_name d) ++ W).
  split; [now rewrite forallb_app, message_calls_widget, HW |].
  rewrite !app_nil_r in H4. cbn [app] in H4.
  unfold stage_log. now rewrite <- app_assoc.
Qed.

Lemma run_step_none (sel : list (string * Stage)) (i : nat) (a : App) :
  nth_error sel i = None ->
  effect a (run_step sel i a)
    (ConfigureProgress 100 :: message_calls DONE_NOTE) [DONE_NOTE] [].
Proof.
  intros H. unfold run_step, done. rewrite H.
  apply (effect_trans _ _ _ [ConfigureProgress 100] _ [] _ [] []
           (effect_ui (ConfigureProgress 100) a)
           (effect_log_and_output DONE_NOTE _)).
Qed.

Lemma progress_after_app (q1 q2 : list ui_call) (v : Z) :
  progress_after (q1 ++ q2) v = progress_after q2 (progress_after q1 v).
Proof. apply fold_left_app. Qed.

Lemma progress_after_done (q : list ui_call) (v : Z) :
  progress_after (q ++ ConfigureProgress 100 :: message_calls DONE_NOTE) v
  = 100.
Proof. now rewrite progress_after_app. Qed.

(** From the call of [run_step] for the stage after [pre] to the end of
    the run. *)
Lemma run_chain (sds : list stage_descr) (rem : list stage_descr) :
  forall (pre : list stage_descr) (a : App),
    sds = pre ++ rem ->
    forallb is_widget_call (after_queue a) = true ->
    exists n,
      after_queue
        (mainloop n (map (fun d => (sd_name d, stage_of d)) sds)
           (run_step (map (fun d => (sd_name d, stage_of d)) sds)
              (length pre) a)) = []
      /\ log_sink
           (mainloop n (map (fun d => (sd_name d, stage_of d)) sds)
              (run_step (map (fun d => (sd_name d, stage_of d)) sds)
                 (length pre) a))
         = log_sink a ++ flat_map stage_log rem ++ [DONE_NOTE]
      /\ invoked
           (mainloop n (map (fun d => (sd_name d, stage_of d)) sds)
              (run_step (map (fun d => (sd_name d, stage_of d)) sds)
                 (length pre) a))
         = invoked a ++ map sd_name rem
      /\ progress_value
           (mainloop n (map (fun d => (sd_name d, stage_of d)) sds)
              (run_step (map (fun d => (sd_name d, stage_of d)) sds)
                 (length pre) a)) = 100
      /\ progress_maximum
           (mainloop n (map (fun d => (sd_name d, stage_of d)) sds)
              (run_step (map (fun d => (sd_name d, stage_of d)) sds)
                 (length pre) a)) = progress_maximum a.
Proof.
  set (sel := map (fun d => (sd_name d, stage_of d)) sds).
  induction rem as [| d rem IH]; intros pre a Hsds Hq.
  - assert (Hnone : nth_error sel (length pre) = None).
    { apply nth_error_None. subst sel. rewrite length_map, Hsds, app_nil_r.
      lia. }
    destruct (run_step_none sel (length pre) a Hnone)
      as (E1 & E2 & E3 & E4 & E5).
    set (Q := after_queue a ++ ConfigureProgress 100 :: message_calls DONE_NOTE)
      in *.
    assert (HQ : forallb is_widget_call Q = true).
    { subst Q. rewrite forallb_app, Hq. cbn [forallb is_widget_call andb].
      apply message_calls_widget. }
    destruct (drain sel Q (run_step sel (length pre) a) [] HQ)
      as (D1 & D2 & D3 & D4 & D5); [now rewrite app_nil_r |].
    exists (length Q). rewrite D1, D2, D3, D4, D5, E2, E3, E4, E5.
    subst Q. rewrite progress_after_done. cbn [flat_map map app].
    rewrite ?app_nil_r. now repeat split.
  - assert (Hsome : nth_error sel (length pre) = Some (sd_name d, stage_of d)).
    { subst sel. rewrite Hsds, map_app, nth_error_app2;
        rewrite length_map; [| lia].
      now rewrite Nat.sub_diag. }
    destruct (run_step_some sel (length pre) a d Hsome)
      as (W & HW & E1 & E2 & E3 & E4 & E5).
    set (a' := run_step sel (length pre) a) in *.
    set (Q := after_queue a ++ W).
    assert (HQ : forallb is_widget_call Q = true)
      by (subst Q; now rewrite forallb_app, Hq, HW).
    destruct (drain sel Q a' [Continue (S (length pre))] HQ)
      as (D1 & D2 & D3 & D4 & D5).
    { subst Q. now rewrite E1, <- app_assoc. }
    set (a1 := mainloop (length Q) sel a') in *.
    assert (Hstep : mainloop 1 sel a1
                    = run_step sel (S (length pre)) (set_after_queue [] a1)).
    { simpl. now rewrite D1. }
    destruct (IH (pre ++ [d]) (set_after_queue [] a1))
      as (n & F1 & F2 & F3 & F4 & F5).
    { now rewrite <- app_assoc. }
    { reflexivity. }
    rewrite length_app in F1, F2, F3, F4, F5. cbn [length] in F1, F2, F3, F4, F5.
    rewrite Nat.add_1_r in F1, F2, F3, F4, F5.
    rewrite <- Hstep in F1, F2, F3, F4, F5.
    rewrite <- (mainloop_add 1 n sel a1) in F1, F2, F3, F4, F5.
    unfold a1 in F1, F2, F3, F4, F5.
    rewrite <- (mainloop_add (length Q) (1 + n) sel a') in F1, F2, F3, F4, F5.
    exists (length Q + (1 + n))%nat.
    rewrite F1, F2, F3, F4, F5.
    cbn [set_after_queue log_sink invoked progress_maximum].
    fold a1. rewrite D2, D3, D4, E2, E3, E5.
    cbn [flat_map map]. rewrite <- !app_assoc. now repeat split.
Qed.

Lemma select_steps_of (ds : list stage_descr) :
  select_steps (steps_of ds)
  = map (fun d => (sd_name d, stage_of d)) (selected_of ds).
Proof.
  unfold select_steps, steps_of, selected_of.
  induction ds as [| d ds IH]; [reflexivity |].
  cbn [map flat_map List.filter]. rewrite IH. now destruct (sd_selected d).
Qed.

(** X23: with the acknowledgement given, the run calls the selected stages
    one after the other in the order of the check boxes, each once, and a
    stage whose task raises does not stop the chain: its error is logged
    and the next stage is started.  When the main loop has run the
    scheduled calls, the log holds for every stage its [Starting] line,
    the lines of its task and its error line if it failed, then the final
    note; the progress value is 100, whatever the number of failures; the
    maximum of the bar is the number of selected stages, 1 if there is
    none. *)
Theorem acknowledged_run_completes (ds : list stage_descr) (a : App) :
  default false (acknowledge_var a) = true ->
  after_queue a = [] ->
  exists fuel0, forall fuel, (fuel0 <= fuel)%nat ->
    let b := mainloop fuel (select_steps (steps_of ds))
               (run_selected_steps (steps_of ds) a) in
    after_queue b = []
    /\ invoked b = invoked a ++ map sd_name (selected_of ds)
    /\ log_sink b
       = log_sink a ++ flat_map stage_log (selected_of ds) ++ [DONE_NOTE]
    /\ progress_value b = 100
    /\ progress_maximum b
       = Z.max 1 (Z.of_nat (length (selected_of ds))).
Proof.
  intros Hack Hq. unfold run_selected_steps. rewrite Hack. cbn [negb].
  rewrite select_steps_of, length_map.
  set (a3 := ui_progress 0
               (set_progress_maximum
                  (Z.max 1 (Z.of_nat (length (selected_of ds))))
                  (set_progress_value 0 a))).
  destruct (run_chain (selected_of ds) (selected_of ds) [] a3 eq_refl)
    as (n & F1 & F2 & F3 & F4 & F5).
  { subst a3. simpl. now rewrite Hq. }
  cbn [length] in F1, F2, F3, F4, F5.
  exists n. intros fuel Hfuel. cbv zeta.
  replace fuel with (n + (fuel - n))%nat by lia.
  rewrite mainloop_add, (mainloop_empty _ _ _ F1).
  rewrite F1, F2, F3, F4, F5. now repeat split.
Qed.

Lemma acknowledged_run_completes_witness :
  default false (acknowledge_var (app_fresh true)) = true
  /\ after_queue (app_fresh true) = []
  /\ exists fuel0, forall fuel, (fuel0 <= fuel)%nat ->
       invoked (mainloop fuel (select_steps (steps_of descr_example))
                  (run_selected_steps (steps_of descr_example)
                     (app_fresh true)))
       = ["Extract Slide Text (.txt)"; "Transcribe";
          "Translate Slide Text (.txt)"]
       /\ progress_value
            (mainloop fuel (select_steps (steps_of descr_example))
               (run_selected_steps (steps_of descr_example)
                  (app_fresh true))) = 100.
Proof.
  split; [reflexivity |]. split; [reflexivity |].
  destruct (acknowledged_run_completes descr_example (app_fresh true)
              eq_refl eq_refl) as [fuel0 H].
  exists fuel0. intros fuel Hfuel.
  destruct (H fuel Hfuel) as (_ & H2 & _ & H4 & _).
  split; [exact H2 | exact H4].
Defined.



(** X25: with the acknowledgement given and no box ticked, the run calls
    no stage, whatever the stage functions are: it logs the final note and
    the bar, of maximum 1, goes to 100. *)
Theorem nothing_selected_completes
    (steps_vars : list (string * (bool * Stage))) (a : App) (k : nat) :
  default false (acknowledge_var a) = true ->
  after_queue a = [] ->
  select_steps steps_vars = [] ->
  let b := mainloop (4 + k) (select_steps steps_vars)
             (run_selected_steps steps_vars a) in
  invoked b = invoked a
  /\ log_sink b = log_sink a ++ [DONE_NOTE]
  /\ progress_value b = 100
  /\ progress_maximum b = 1
  /\ after_queue b = [].
Proof.
  intros Hack Hq Hsel b. subst b. rewrite mainloop_add.
  unfold run_selected_steps. rewrite Hack, Hsel. cbn [negb length].
  unfold run_step. cbn [nth_error].
  assert (H : after_queue
                (mainloop 4 []
                   (done "All selected steps completed."
                      (ui_progress 0
                         (set_progress_maximum (Z.max 1 (Z.of_nat 0))
                            (set_progress_value 0 a))))) = []).
  { destruct a; simpl in Hq; subst; reflexivity. }
  rewrite (mainloop_empty _ _ _ H).
  destruct a; simpl in Hq; subst; cbn. now repeat split.
Qed.

Lemma nothing_selected_completes_witness :
  default false (acknowledge_var (app_fresh true)) = true
  /\ after_queue (app_fresh true) = []
  /\ select_steps
       [("Transcribe",
         (false, pipeline_stage "Transcribe Audio" (fun a => (a, Ok tt))))]
     = []
  /\ progress_value
       (mainloop 4
          (select_steps
             [("Transcribe",
               (false,
                pipeline_stage "Transcribe Audio" (fun a => (a, Ok tt))))])
          (run_selected_steps
             [("Transcribe",
               (false,
                pipeline_stage "Transcribe Audio" (fun a => (a, Ok tt))))]
             (app_fresh true))) = 100.
Proof.
  split; [reflexivity |]. split; [reflexivity |]. split; [reflexivity |].
  exact (proj1 (proj2 (proj2
    (nothing_selected_completes
       [("Transcribe",
         (false, pipeline_stage "Transcribe Audio" (fun a => (a, Ok tt))))]
       (app_fresh true) 0 eq_refl eq_refl eq_refl)))).
Defined.



End MainWindowExtras.
